(* ====================================================================== *)
(*  crypto_routines__2010.py : the alphabet code and the Hill cipher      *)
(*                                                                        *)
(*  A shallow embedding of the classes CodeForAlphabet and HillCipher,    *)
(*  with the Python exceptions made explicit, and the properties of the   *)
(*  specification stated over it.                                         *)
(*                                                                        *)
(*  Python integers are unbounded: they are MathComp's [int].  Lists are  *)
(*  [seq]; a Python [str] is a [seq ascii].  A Sage matrix is its list of *)
(*  rows together with its base ring; where a property depends on who     *)
(*  holds a matrix, matrices are objects in a store and names hold        *)
(*  references to them.                                                   *)
(* ====================================================================== *)

From Stdlib Require Import Ascii String.
From HB Require Import structures.
From mathcomp Require Import boot order algebra.

Set Warnings "-deprecated".
Set Implicit Arguments.
Unset Strict Implicit.
Unset Printing Implicit Defensive.

Import Order.Theory GRing.Theory Num.Theory.
Local Open Scope ring_scope.

(* ---------------------------------------------------------------------- *)
(*  Python values that the two classes handle                             *)
(* ---------------------------------------------------------------------- *)

HB.instance Definition _ := hasDecEq.Build ascii Ascii.eqb_spec.

(* A Python 2 [str]. *)
Definition str := seq ascii.

Definition str_of (s : string) : str := list_ascii_of_string s.

(* What a Python list handed to [vector(...)] may hold once a padding
   string has been appended to a list of numbers. *)
Inductive item :=
  | Num (k : int)
  | Chr (c : ascii).

(* The two texts the source gives to [RuntimeError], and the one it gives
   to [TypeError]. *)
Inductive runtime_msg :=
  | Cannot_find_the_inverse                    (* line 337 *)
  | Additional_padding_is_needed (w : seq item). (* line 409 *)

Inductive type_msg :=
  | No_modulus_is_specified                    (* line 323 *)
  | Raised_by_the_library.                     (* base_extend, vector, MS *)

(* The exception classes a call can end with.

     specification name     raised as
     NotImplemented         NotImplementedError
     UnknownSymbol          ValueError        (str.index)
     IndexOutOfRange        IndexError        (str.__getitem__)
     NoModulus              TypeError No_modulus_is_specified
     NotInvertible          RuntimeError Cannot_find_the_inverse
     PaddingRequired        RuntimeError (Additional_padding_is_needed w) *)
Inductive exn :=
  | NotImplementedError
  | ValueError
  | IndexError
  | TypeError (m : type_msg)
  | RuntimeError (m : runtime_msg)
  | UnboundLocalError
  | ZeroDivisionError
  | ArithmeticError.

Definition result (A : Type) : Type := exn + A.

Definition ret {A} (a : A) : result A := inr a.
Definition raise {A} (e : exn) : result A := inl e.

Definition bind {A B} (m : result A) (k : A -> result B) : result B :=
  match m with
  | inl e => inl e
  | inr a => k a
  end.

Notation "x <- m ;; k" := (bind m (fun x => k))
  (at level 100, m at next level, right associativity).

Definition succeeds {A} (m : result A) : bool :=
  if m is inr _ then true else false.

(* [for i in r: s = body(i, s)], leaving at the first exception. *)
Fixpoint for_ {I S : Type} (r : seq I) (body : I -> S -> result S) (s : S)
  : result S :=
  match r with
  | [::] => ret s
  | i :: r' => s' <- body i s ;; for_ r' body s'
  end.

(* [range(n)] and [range(0, stop, step)]. *)
Definition range (n : nat) : seq nat := iota 0 n.

Definition range_step (stop step : nat) : result (seq nat) :=
  if step == 0%N then raise ValueError
  else ret [seq (k * step)%N | k <- iota 0 ((stop + step.-1) %/ step)].

(* [l[i:j]] for [0 <= i <= j]. *)
Definition slice {T} (l : seq T) (i j : nat) : seq T := take (j - i) (drop i l).

(* [s.index(c)] for a one-character [c]. *)
Definition str_index (s : str) (c : ascii) : result int :=
  if c \in s then ret (Posz (index c s)) else raise ValueError.

(* [s[k]]: a negative index counts from the end. *)
Definition str_getitem (s : str) (k : int) : result ascii :=
  let k' := if k < 0 then k + Posz (size s) else k in
  if (0 <= k') && (k' < Posz (size s)) then ret (nth "000"%char s `|k'|)
  else raise IndexError.

(* ---------------------------------------------------------------------- *)
(*  class CodeForAlphabet                                                 *)
(* ---------------------------------------------------------------------- *)

Module CodeForAlphabet.

Record t := Make {
  __codeword_length : int;
  __alphabet_string : str
}.

(* [__init__]: stores both arguments, checks nothing. *)
Definition __init__ (alphabet_string : str) (word_length : int) : result t :=
  ret (Make word_length alphabet_string).

Definition encode (self : t) (text_str : str) : result (seq int) :=
  if __codeword_length self != 1 then raise NotImplementedError
  else
    for_ (range (size text_str))
      (fun i num_list =>
         k <- str_index (__alphabet_string self) (nth "000"%char text_str i) ;;
         ret (rcons num_list k))
      [::].

Definition decode (self : t) (num_list : seq int) : result str :=
  if __codeword_length self != 1 then raise NotImplementedError
  else
    for_ (range (size num_list))
      (fun i new_string =>
         c <- str_getitem (__alphabet_string self) (nth 0 num_list i) ;;
         ret (new_string ++ [:: c]))
      [::].

End CodeForAlphabet.

(* ---------------------------------------------------------------------- *)
(*  The part of Sage the cipher calls: rings Z/NZ, matrices, vectors      *)
(*                                                                        *)
(*  Sage is a library the source imports, not part of it: the operations  *)
(*  below follow the behaviour Sage documents for them, as executable     *)
(*  functions on lists of rows.                                           *)
(* ---------------------------------------------------------------------- *)

(* The base rings the class is documented for: [IntegerModRing(order)],
   and the ring of integers ZZ, which is the case order = 0. *)
Inductive ring := IntegerModRing_ (order : nat).

Definition ZZ : ring := IntegerModRing_ 0.
Definition IntegerModRing (N : int) : ring := IntegerModRing_ `|N|.

Definition characteristic (R : ring) : int :=
  let: IntegerModRing_ order := R in Posz order.

Definition order_of (R : ring) : nat := let: IntegerModRing_ order := R in order.

(* A matrix: its base ring and its rows.  Entries are kept as integers
   and every operation over Z/NZ reduces its results to [0, N). *)
Record matrix := Matrix {
  base_ring : ring;
  rows : seq (seq int)
}.

Definition nrows (M : matrix) : nat := size (rows M).

Definition is_square (n : nat) (A : seq (seq int)) : bool :=
  (size A == n) && all (fun r => size r == n) A.

Definition reduce (m : nat) (A : seq (seq int)) : seq (seq int) :=
  [seq [seq (c %% Posz m)%Z | c <- r] | r <- A].

(* [M.base_extend(R)]: defined when the base ring of [M] maps to [R]. *)
Definition base_extend (M : matrix) (R : ring) : result matrix :=
  if (order_of R %| order_of (base_ring M))%N
  then ret (Matrix R (reduce (order_of R) (rows M)))
  else raise (TypeError Raised_by_the_library).

(* [MatrixSpace(R, n, n)(M)]: the rows of [M] as an n x n matrix over R. *)
Definition MatrixSpace (R : ring) (n : nat) (M : matrix)
  : result (seq (seq int)) :=
  if is_square n (rows M) && (order_of R %| order_of (base_ring M))%N
  then ret (reduce (order_of R) (rows M))
  else raise (TypeError Raised_by_the_library).

(* [vector(w)]: every entry has to be a number. *)
Fixpoint vector (w : seq item) : result (seq int) :=
  match w with
  | [::] => ret [::]
  | Num k :: w' => v <- vector w' ;; ret (k :: v)
  | Chr _ :: _ => raise (TypeError Raised_by_the_library)
  end.

Definition sumz (s : seq int) : int := foldr +%R 0 s.

Definition dot (r v : seq int) : int := sumz [seq p.1 * p.2 | p <- zip r v].

(* [[c.lift() for c in A * v]] over Z/mZ. *)
Definition mulmv (m : nat) (A : seq (seq int)) (v : seq int) : seq int :=
  [seq (dot r v %% Posz m)%Z | r <- A].

Definition col (A : seq (seq int)) (j : nat) : seq int :=
  [seq nth 0 r j | r <- A].

(* [A * B] over Z/mZ, for n x n matrices. *)
Definition mulmm (m n : nat) (A B : seq (seq int)) : seq (seq int) :=
  [seq [seq (dot r (col B j) %% Posz m)%Z | j <- iota 0 n] | r <- A].


(* The inverse over Z/mZ, by the adjugate: M^-1 = det(M)^-1 * adj(M). *)
Definition remove {T} (k : nat) (s : seq T) : seq T := take k s ++ drop k.+1 s.

Definition minor (i j : nat) (A : seq (seq int)) : seq (seq int) :=
  [seq remove j r | r <- remove i A].

Fixpoint det (n : nat) (A : seq (seq int)) : int :=
  match n with
  | 0%N => 1
  | n'.+1 =>
      sumz [seq nth 0 (nth [::] A 0) j * ((-1) ^+ j * det n' (minor 0 j A))
           | j <- iota 0 n]
  end.

Definition adjugate (n : nat) (A : seq (seq int)) : seq (seq int) :=
  [seq [seq (-1) ^+ (j + i) * det n.-1 (minor j i A) | j <- iota 0 n]
  | i <- iota 0 n].

(* [M.inverse()] for a matrix over Z/mZ with m > 0: raises
   ArithmeticError when M is not square and ZeroDivisionError when its
   determinant is not a unit.  Over ZZ (order 0) Sage inverts over the
   rationals; that case is not covered here (the constructor reaches it
   only when it is called with the modulus 0) and is made to raise. *)
Definition inverse (M : matrix) : result matrix :=
  let m := order_of (base_ring M) in
  let n := nrows M in
  if ~~ is_square n (rows M) then raise ArithmeticError
  else if m == 0%N then raise ZeroDivisionError
  else
    let d := det n (rows M) in
    if gcdz d (Posz m) != 1%N then raise ZeroDivisionError
    else
      let u := (egcdz d (Posz m)).1 in
      ret (Matrix (base_ring M)
                  [seq [seq (u * c %% Posz m)%Z | c <- r]
                  | r <- adjugate n (rows M)]).

(* ---------------------------------------------------------------------- *)
(*  class HillCipher                                                      *)
(* ---------------------------------------------------------------------- *)

Module HillCipher.

Record t := Make {
  __encryption_matrix : matrix;
  __decryption_matrix : matrix;
  __modulus : int
}.

(* [__init__(self, arg1, arg2=None, pass_decryption_key=False)].
   The handler of the [try] names [mod_matrix_inv], which no statement has
   bound when [inverse()] raised: evaluating the operands of [raise] stops
   with UnboundLocalError before RuntimeError is raised. *)
Definition __init__ (arg1 : matrix) (arg2 : option int)
    (pass_decryption_key : bool) : result t :=
  N_mod_matrix <-
    (match arg2 with
     | None =>
         let N := characteristic (base_ring arg1) in
         if N == 0 then raise (TypeError No_modulus_is_specified)
         else ret (N, arg1)
     | Some N =>
         mod_matrix <- base_extend arg1 (IntegerModRing N) ;;
         ret (N, mod_matrix)
     end) ;;
  let: (N, mod_matrix) := N_mod_matrix in
  mod_matrix_inv <-
    (match inverse mod_matrix with
     | inr mod_matrix_inv => ret mod_matrix_inv
     | inl _ => raise UnboundLocalError
     end) ;;
  if pass_decryption_key == false
  then ret (Make mod_matrix mod_matrix_inv N)
  else ret (Make mod_matrix_inv mod_matrix N).

Definition modulus (self : t) : int := __modulus self.

Definition block_size (self : t) : nat := nrows (__encryption_matrix self).

(* The accessors return [deepcopy] of the stored matrices: values here. *)
Definition encryption_key (self : t) : matrix := __encryption_matrix self.

Definition decryption_key (self : t) : matrix := __decryption_matrix self.

Definition __apply_Hill_matrix__ (self : t) (key_matrix : matrix)
    (plaintext_num_list : seq int) (padding_char : seq item)
  : result (seq int) :=
  let n := block_size self in
  let N := __modulus self in
  let R := IntegerModRing N in
  A <- MatrixSpace R n key_matrix ;;
  word_indices <- range_step (size plaintext_num_list) n ;;
  for_ word_indices
    (fun word_index CT_num_list =>
       let PT_word :=
         [seq Num k | k <- slice plaintext_num_list word_index (word_index + n)] in
       PT_word <-
         (if size PT_word != n then
            if size padding_char != 1%N
            then raise (RuntimeError (Additional_padding_is_needed PT_word))
            else ret (PT_word ++ flatten (nseq (n - size PT_word) padding_char))
          else ret PT_word) ;;
       v <- vector PT_word ;;
       let CT_word_mod := mulmv (order_of R) A v in
       ret (CT_num_list ++ CT_word_mod))
    [::].

(* Both pass the literal [padding_char=""] on, whatever the caller gave. *)
Definition encrypt (self : t) (plaintext_num_list : seq int)
    (padding_char : seq item) : result (seq int) :=
  __apply_Hill_matrix__ self (__encryption_matrix self) plaintext_num_list [::].

Definition decrypt (self : t) (ciphertext_num_list : seq int)
    (padding_char : seq item) : result (seq int) :=
  __apply_Hill_matrix__ self (__decryption_matrix self) ciphertext_num_list [::].

End HillCipher.

(* ---------------------------------------------------------------------- *)
(*  Products of keys                                                      *)
(* ---------------------------------------------------------------------- *)

(* [A * B] for two square matrices of one size over one ring Z/mZ (the
   only products the properties below form). *)
Definition matrix_mul (A B : matrix) : result matrix :=
  let m := order_of (base_ring A) in
  let n := nrows A in
  if [&& order_of (base_ring B) == m, is_square n (rows A)
       & is_square n (rows B)]
  then ret (Matrix (base_ring A) (mulmm m n (rows A) (rows B)))
  else raise (TypeError Raised_by_the_library).

(* ---------------------------------------------------------------------- *)
(*  Matrices as objects: what a HillCipher shares with its caller         *)
(* ---------------------------------------------------------------------- *)

(* A Sage matrix is a mutable object.  A name or an attribute holds a
   reference to it, and [M[i,j] = v] changes the one object for every
   holder.  The store lists the matrices alive by location; an object once
   made stays where it is. *)
Definition loc := nat.
Definition heap := seq matrix.

Definition no_matrix : matrix := Matrix ZZ [::].

Definition deref (h : heap) (l : loc) : matrix := nth no_matrix h l.

Arguments deref : simpl never.

Definition alloc (h : heap) (M : matrix) : heap * loc := (rcons h M, size h).

Definition store (h : heap) (l : loc) (M : matrix) : heap :=
  set_nth no_matrix h l M.

(* [M[i,j] = v] for indices from 0: the value is taken into the base ring
   of [M]; an index past the end is an IndexError and changes nothing. *)
Definition setitem (M : matrix) (i j : nat) (v : int) : result matrix :=
  let row := nth [::] (rows M) i in
  if (i < nrows M)%N && (j < size row)%N
  then ret (Matrix (base_ring M)
              (set_nth [::] (rows M) i
                 (set_nth 0 row j (v %% Posz (order_of (base_ring M)))%Z)))
  else raise IndexError.

(* The class once more, with its attributes as the references the source
   stores.  [__init__] reads as HillCipher.__init__ does; what is new is
   which objects the attributes name: with no modulus [mod_matrix = arg1]
   is the caller's own matrix, with a modulus [base_extend] makes a new
   one, and [inverse()] always does. *)
Module HillCipherObject.

Record t := Make {
  __encryption_matrix : loc;
  __decryption_matrix : loc;
  __modulus : int
}.

Definition __init__ (h : heap) (arg1 : loc) (arg2 : option int)
    (pass_decryption_key : bool) : result (heap * t) :=
  h_N_mod_matrix <-
    (match arg2 with
     | None =>
         let N := characteristic (base_ring (deref h arg1)) in
         if N == 0 then raise (TypeError No_modulus_is_specified)
         else ret (h, N, arg1)
     | Some N =>
         M <- base_extend (deref h arg1) (IntegerModRing N) ;;
         let: (h, mod_matrix) := alloc h M in
         ret (h, N, mod_matrix)
     end) ;;
  let: (h, N, mod_matrix) := h_N_mod_matrix in
  h_mod_matrix_inv <-
    (match inverse (deref h mod_matrix) with
     | inr M => ret (alloc h M)
     | inl _ => raise UnboundLocalError
     end) ;;
  let: (h, mod_matrix_inv) := h_mod_matrix_inv in
  if pass_decryption_key == false
  then ret (h, Make mod_matrix mod_matrix_inv N)
  else ret (h, Make mod_matrix_inv mod_matrix N).

(* The engine as the methods read it: the matrices its attributes name
   now. *)
Definition value (h : heap) (self : t) : HillCipher.t :=
  HillCipher.Make (deref h (__encryption_matrix self))
                  (deref h (__decryption_matrix self))
                  (__modulus self).

Definition modulus (h : heap) (self : t) : int :=
  HillCipher.modulus (value h self).

Definition block_size (h : heap) (self : t) : nat :=
  HillCipher.block_size (value h self).

(* [deepcopy] makes a new object. *)
Definition encryption_key (h : heap) (self : t) : heap * loc :=
  alloc h (HillCipher.encryption_key (value h self)).

Definition decryption_key (h : heap) (self : t) : heap * loc :=
  alloc h (HillCipher.decryption_key (value h self)).

Definition encrypt (h : heap) (self : t) (plaintext_num_list : seq int)
    (padding_char : seq item) : result (seq int) :=
  HillCipher.encrypt (value h self) plaintext_num_list padding_char.

Definition decrypt (h : heap) (self : t) (ciphertext_num_list : seq int)
    (padding_char : seq item) : result (seq int) :=
  HillCipher.decrypt (value h self) ciphertext_num_list padding_char.

End HillCipherObject.

(* What the caller of an engine can do next: call one of its methods, make
   a matrix, or assign to an entry of a matrix it holds. *)
Inductive action :=
  | Call_repr
  | Call_modulus
  | Call_block_size
  | Call_encryption_key
  | Call_decryption_key
  | Call_encrypt (plaintext_num_list : seq int) (padding_char : seq item)
  | Call_decrypt (ciphertext_num_list : seq int) (padding_char : seq item)
  | New_matrix (M : matrix)
  | Setitem (M : loc) (i j : nat) (v : int).

(* What an action hands back; [Repr n N] is the text of [__repr__] with
   its two numbers, [Ref l] a reference to a matrix. *)
Inductive answer :=
  | Repr (n : nat) (N : int)
  | Modulus (N : int)
  | Block_size (n : nat)
  | Ref (l : loc)
  | Numbers (r : result (seq int))
  | Assigned (r : result unit).

(* The matrices alive and the ones the caller holds a reference to.  The
   attributes of the engine are its own (their names start with two
   underscores): the caller holds what it made or was handed. *)
Record world := World {
  objects : heap;
  held : seq loc
}.

(* An action: the answer, and the world afterwards.  No method body
   assigns an attribute, so [self] stays as [__init__] made it; the
   matrices its attributes name are in the store with all others. *)
Definition perform (self : HillCipherObject.t) (a : action) (w : world)
  : answer * world :=
  let h := objects w in
  match a with
  | Call_repr =>
      (Repr (HillCipherObject.block_size h self)
            (HillCipherObject.__modulus self), w)
  | Call_modulus => (Modulus (HillCipherObject.modulus h self), w)
  | Call_block_size => (Block_size (HillCipherObject.block_size h self), w)
  | Call_encryption_key =>
      let: (h', l) := HillCipherObject.encryption_key h self in
      (Ref l, World h' (l :: held w))
  | Call_decryption_key =>
      let: (h', l) := HillCipherObject.decryption_key h self in
      (Ref l, World h' (l :: held w))
  | Call_encrypt x padding_char =>
      (Numbers (HillCipherObject.encrypt h self x padding_char), w)
  | Call_decrypt x padding_char =>
      (Numbers (HillCipherObject.decrypt h self x padding_char), w)
  | New_matrix M =>
      let: (h', l) := alloc h M in (Ref l, World h' (l :: held w))
  | Setitem M i j v =>
      match setitem (deref h M) i j v with
      | inr M' => (Assigned (inr tt), World (store h M M') (held w))
      | inl e => (Assigned (inl e), w)
      end
  end.

Definition after (self : HillCipherObject.t) (actions : seq action)
    (w : world) : world :=
  foldl (fun w a => (perform self a w).2) w actions.

(* The caller assigns only to matrices it holds when it does. *)
Definition holds (w : world) (a : action) : bool :=
  if a is Setitem M _ _ _ then M \in held w else true.

Fixpoint permitted (self : HillCipherObject.t) (actions : seq action)
    (w : world) : bool :=
  if actions is a :: actions' then
    holds w a && permitted self actions' (perform self a w).2
  else true.

(* The world right after [HillCipher(arg1, ...)] returned with the store
   h', called where the store was h: the caller holds every matrix that
   was alive before the call, [arg1] among them. *)
Definition world_after_init (h h' : heap) : world := World h' (iota 0 (size h)).

(* [self.encryption_key() * self.decryption_key()], and the identity
   matrix of the engine's size over its ring. *)
Definition key_product (self : HillCipherObject.t) (w : world)
  : result matrix :=
  let: (h1, E) := HillCipherObject.encryption_key (objects w) self in
  let: (h2, D) := HillCipherObject.decryption_key h1 self in
  matrix_mul (deref h2 E) (deref h2 D).





(* ---------------------------------------------------------------------- *)
(*  def PermutationCipher                                                 *)
(* ---------------------------------------------------------------------- *)

(* The default of the argument [padding_char]. *)
Definition padding_char_default : str := str_of "X".

(* [PermutationCipher(key_list, plaintext, padding_char="X")]; the list
   [PT_word_list] the source builds is never read. *)
Definition PermutationCipher (key_list : seq int) (plaintext : str)
    (padding_char : str) : result str :=
  let n := size key_list in
  word_indices <- range_step (size plaintext) n ;;
  for_ word_indices
    (fun word_index CT_str =>
       let PT_word := slice plaintext word_index (word_index + n) in
       PT_word <-
         (if size PT_word != n then
            if size padding_char != 1%N
            then raise (RuntimeError (Additional_padding_is_needed
                                        [seq Chr c | c <- PT_word]))
            else ret (PT_word ++ flatten (nseq (n - size PT_word) padding_char))
          else ret PT_word) ;;
       CT_word <-
         for_ (range n)
           (fun i CT_word =>
              c <- str_getitem PT_word (nth 0 key_list i) ;;
              ret (CT_word ++ [:: c]))
           [::] ;;
       ret (CT_str ++ CT_word))
    [::].

(* ---------------------------------------------------------------------- *)
(*  def letter_stats                                                      *)
(* ---------------------------------------------------------------------- *)

(* [c.isalpha()] and [c.upper()] for a character of a Python 2 [str], in
   the C locale: the letters are the 52 ASCII letters. *)
Definition isalpha (c : ascii) : bool :=
  let k := nat_of_ascii c in
  ((65 <= k) && (k <= 90))%N || ((97 <= k) && (k <= 122))%N.

Definition upper (c : ascii) : ascii :=
  let k := nat_of_ascii c in
  if ((97 <= k) && (k <= 122))%N then ascii_of_nat (k - 32) else c.

Arguments isalpha : simpl never.
Arguments upper : simpl never.

(* [s.upper()], [t.startswith(s)], [t.endswith(s)] *)
Definition str_upper (s : str) : str := [seq upper c | c <- s].
Definition startswith (t s : str) : bool := prefix s t.
Definition endswith (t s : str) : bool := suffix s t.

(* A dictionary from strings to counts, as the list of its items in the
   order the keys were first stored. *)
Definition dict := seq (str * nat).

Definition dict_get (d : dict) (k : str) : option nat :=
  if [seq kv <- d | kv.1 == k] is kv :: _ then Some kv.2 else None.

Definition dict_set (d : dict) (k : str) (v : nat) : dict :=
  if k \in [seq kv.1 | kv <- d]
  then [seq (if kv.1 == k then (k, v) else kv) | kv <- d]
  else rcons d (k, v).

Definition dict_keys (d : dict) : seq str := [seq kv.1 | kv <- d].

(* [letter_stats(input_text, fragment_length=1, starts_with="",
   ends_with="", show_at_most=None)].

   Two things the function reads from its surroundings are arguments here:
   [read_file path] is the content of the file when [os.path.isfile(path)]
   holds (the file is then taken to be readable), and [keys_order ks] is
   the order in which a dictionary whose keys were stored in the order ks
   hands them out, a rearrangement of ks.  [os.path.isfile] asks
   [os.stat], which refuses a path with a NUL character by a TypeError that
   [isfile] does not catch.  The result is the list of rows printed
   together with the list returned; of a printed row the text also shows
   the percentage, a float, which is left out.  [fragment_length] is a
   natural number. *)
Definition letter_stats (read_file : str -> option str)
    (keys_order : seq str -> seq str)
    (input_text : str) (fragment_length : nat) (starts_with ends_with : str)
    (show_at_most : option int)
    : result (seq (str * nat) * seq (str * nat)) :=
  is_file <-
    (if "000"%char \in input_text then raise (TypeError Raised_by_the_library)
     else ret (read_file input_text)) ;;
  let text := if is_file is Some content then content else input_text in
  let N := fragment_length in
  let clean_text :=
    foldl (fun clean_text i =>
             if isalpha (nth "000"%char text i)
             then clean_text ++ [:: upper (nth "000"%char text i)]
             else clean_text)
          [::] (range (size text)) in
  let starts_with_caps := str_upper starts_with in
  let ends_with_caps := str_upper ends_with in
  let: (count_dictionary, total) :=
    foldl (fun (state : dict * nat) i =>
             let: (count_dictionary, total) := state in
             let tmp_key := slice clean_text i (i + N) in
             if startswith tmp_key starts_with_caps
                && endswith tmp_key ends_with_caps
             then
               (match dict_get count_dictionary tmp_key with
                | Some count => dict_set count_dictionary tmp_key (count + 1)
                | None => dict_set count_dictionary tmp_key 1
                end, (total + 1)%N)
             else state)
          ([::], 0%N) (range (size clean_text + 1 - N)) in
  let L := [seq (k, odflt 0%N (dict_get count_dictionary k))
           | k <- keys_order (dict_keys count_dictionary)] in
  let L1 := sort (fun a b => (b.2 <= a.2)%N) L in
  let show_range :=
    match show_at_most with
    | None => range (size L1)
    | Some k => if k < 0 then [::] else range (minn (size L1) `|k|)
    end in
  ret ([seq nth ([::], 0%N) L1 i | i <- show_range], L1).

(* ====================================================================== *)
(*  Definitions the statements and their proofs use                       *)
(* ====================================================================== *)

(* The examples of the docstrings. *)
Definition A1234 : matrix := Matrix ZZ [:: [:: 1; 2]; [:: 3; 4]].
Definition ABCDE : str := str_of "ABCDE".

(* The engine of the docstring: [HillCipher(Matrix(ZZ, 2, 2, [1,2,3,4]), 3)]. *)
Definition H1234 : HillCipher.t :=
  HillCipher.Make (Matrix (IntegerModRing 3) [:: [:: 1; 2]; [:: 0; 1]])
                  (Matrix (IntegerModRing 3) [:: [:: 1; 1]; [:: 0; 1]])
                  3.

(* [Matrix(ZZ, n, n, 0)] *)
Definition zero_matrix (n : nat) : seq (seq int) :=
  @nseq (seq int) n (@nseq int n 0).

(* A matrix over Z/3Z, as [Matrix(IntegerModRing(3), 2, 2, [1, 2, 3, 4])]. *)
Definition A3 : matrix := Matrix (IntegerModRing 3) [:: [:: 1; 2]; [:: 0; 1]].

(* The list a loop of [append]s builds, as one traversal. *)
Fixpoint mapM {A B : Type} (f : A -> result B) (xs : seq A) : result (seq B) :=
  match xs with
  | [::] => ret [::]
  | x :: xs' => y <- f x ;; ys <- mapM f xs' ;; ret (y :: ys)
  end.

(* The position [s[k]] reads. *)
Definition position (L : nat) (k : int) : nat :=
  `|if k < 0 then k + Posz L else k|.

Definition in_bounds (L : nat) (k : int) : bool :=
  (- Posz L <= k) && (k < Posz L).

Definition in_range (N : int) (c : int) : bool := (0 <= c) && (c < N).

Definition canonical (m : nat) (c : int) : bool := (0 <= c) && (c < Posz m).

(* The word the loop of [__apply_Hill_matrix__] appends for one
   [word_index]: n the block size, m the order of the ring, A the key. *)
Definition word (n m : nat) (A : seq (seq int)) (padding_char : seq item)
    (x : seq int) (word_index : nat) : result (seq int) :=
  let PT_word := [seq Num k | k <- slice x word_index (word_index + n)] in
  PT_word <-
    (if size PT_word != n then
       if size padding_char != 1%N
       then raise (RuntimeError (Additional_padding_is_needed PT_word))
       else ret (PT_word ++ flatten (nseq (n - size PT_word) padding_char))
     else ret PT_word) ;;
  v <- vector PT_word ;;
  ret (mulmv m A v).

Definition indices (n stop : nat) : seq nat :=
  [seq (k * n)%N | k <- iota 0 ((stop + n.-1) %/ n)].

Definition blocks (n m : nat) (A : seq (seq int)) (padding_char : seq item)
    (x : seq int) : result (seq int) :=
  ws <- mapM (word n m A padding_char x) (indices n (size x)) ;;
  ret (flatten ws).

Definition mx (n : nat) (A : seq (seq int)) : 'M[int]_n :=
  \matrix_(i, j) nth 0 (nth [::] A i) j.

Definition cv (n : nat) (v : seq int) : 'cV[int]_n := \col_i nth 0 v i.

(* Entrywise congruence modulo m. *)
Definition eqmx_mod (m : nat) (p q : nat) (M1 M2 : 'M[int]_(p, q)) : Prop :=
  forall i j, (M1 i j = M2 i j %[mod Posz m])%Z.

(* The order of the ring [IntegerModRing(self.__modulus)]. *)
Definition order (self : HillCipher.t) : nat := `|HillCipher.__modulus self|.

(* The rows of the two stored matrices. *)
Definition E (self : HillCipher.t) : seq (seq int) :=
  rows (HillCipher.__encryption_matrix self).

Definition D (self : HillCipher.t) : seq (seq int) :=
  rows (HillCipher.__decryption_matrix self).

(* What construction establishes: both keys are n x n over Z/NZ, and
   inverse to each other on both sides. *)
Record well_formed (self : HillCipher.t) : Prop := WellFormed {
  wf_order : (0 < order self)%N;
  wf_enc_ring :
    base_ring (HillCipher.__encryption_matrix self)
    = IntegerModRing (HillCipher.__modulus self);
  wf_dec_ring :
    base_ring (HillCipher.__decryption_matrix self)
    = IntegerModRing (HillCipher.__modulus self);
  wf_enc_square : is_square (HillCipher.block_size self) (E self);
  wf_dec_square : is_square (HillCipher.block_size self) (D self);
  wf_enc_dec :
    eqmx_mod (order self)
      (mx (HillCipher.block_size self) (E self)
       *m mx (HillCipher.block_size self) (D self)) 1%:M;
  wf_dec_enc :
    eqmx_mod (order self)
      (mx (HillCipher.block_size self) (D self)
       *m mx (HillCipher.block_size self) (E self)) 1%:M
}.

(* The matrix [__init__] inverts and the modulus it stores. *)
Definition init_matrix (arg1 : matrix) (arg2 : option int)
  : result (int * matrix) :=
  match arg2 with
  | None =>
      let N := characteristic (base_ring arg1) in
      if N == 0 then raise (TypeError No_modulus_is_specified)
      else ret (N, arg1)
  | Some N =>
      mod_matrix <- base_extend arg1 (IntegerModRing N) ;;
      ret (N, mod_matrix)
  end.

(* The two key matrices as [__apply_Hill_matrix__] uses them. *)
Definition enc_rows (self : HillCipher.t) : seq (seq int) :=
  reduce (order self) (rows (HillCipher.__encryption_matrix self)).

Definition dec_rows (self : HillCipher.t) : seq (seq int) :=
  reduce (order self) (rows (HillCipher.__decryption_matrix self)).

(* A loop over the words of [x], n at a time: [full] is what the body does
   with a word of n entries, [short] what it does with a shorter last one. *)
Definition gword {T U : Type} (n : nat) (full short : seq T -> result (seq U))
    (x : seq T) (word_index : nat) : result (seq U) :=
  let w := slice x word_index (word_index + n) in
  if size w != n then short w else full w.

Definition gblocks {T U : Type} (n : nat) (full short : seq T -> result (seq U))
    (x : seq T) : result (seq U) :=
  ws <- mapM (gword n full short x) (indices n (size x)) ;; ret (flatten ws).

(* What PermutationCipher makes of one word of n characters. *)
Definition permute (key_list : seq int) (PT_word : str) : result str :=
  mapM (str_getitem PT_word) key_list.

(* ... and of a shorter last word. *)
Definition permute_short (key_list : seq int) (padding_char : str)
    (PT_word : str) : result str :=
  if size padding_char != 1%N
  then raise (RuntimeError (Additional_padding_is_needed
                              [seq Chr c | c <- PT_word]))
  else permute key_list
         (PT_word ++ flatten (nseq (size key_list - size PT_word) padding_char)).

(* The plaintext with the padding the last word gets. *)
Definition padded (n : nat) (c : ascii) (plaintext : str) : str :=
  plaintext ++ nseq ((n - size plaintext %% n) %% n) c.

(* A key that lists the numbers 0 .. n-1 in some order, and the key that
   undoes it. *)
Definition is_permutation (key_list : seq int) : bool :=
  perm_eq key_list [seq Posz i | i <- iota 0 (size key_list)].

Definition inverse_key (key_list : seq int) : seq int :=
  [seq Posz (index (Posz i) key_list) | i <- iota 0 (size key_list)].

(* The key of two permutations in a row: first [key1], then [key2]. *)
Definition compose_keys (key1 key2 : seq int) : seq int :=
  [seq nth 0 key1 `|k| | k <- key2].

(* Entry by entry: the sum of two sequences, and their sum modulo N. *)
Definition addv (x y : seq int) : seq int := [seq p.1 + p.2 | p <- zip x y].

Definition addv_mod (N : int) (x y : seq int) : seq int :=
  [seq ((p.1 + p.2) %% N)%Z | p <- zip x y].

(* A sequence extended by copies of [c] to the next multiple of n. *)
Definition pad_to {T : Type} (n : nat) (c : T) (x : seq T) : seq T :=
  x ++ nseq ((n - size x %% n) %% n) c.

(* letter_stats: the cleaned text, the fragments of length N the counting
   loop visits, those it counts, and one pass of its try/except. *)
Definition clean (text : str) : str := [seq upper c | c <- text & isalpha c].

Definition fragments (N : nat) (t : str) : seq str :=
  [seq slice t i (i + N) | i <- iota 0 (size t + 1 - N)].

Definition matching (N : nat) (S E : str) (t : str) : seq str :=
  [seq f <- fragments N t | startswith f S && endswith f E].

Definition count_up (d : dict) (k : str) : dict :=
  match dict_get d k with
  | Some count => dict_set d k (count + 1)
  | None => dict_set d k 1
  end.

Definition dict_count (d : dict) (k : str) : nat := odflt 0%N (dict_get d k).

Definition tally (fs : seq str) : dict := foldl count_up [::] fs.

(* The text read, and the number of rows printed out of n. *)
Definition text_read (read_file : str -> option str) (input_text : str) : str :=
  if read_file input_text is Some content then content else input_text.

Definition shown (show_at_most : option int) (n : nat) : nat :=
  match show_at_most with
  | None => n
  | Some k => if k < 0 then 0%N else minn n `|k|
  end.

(* The order of the rows returned, and the rows themselves: one for each
   key the dictionary hands out after the counting loop. *)
Definition by_count (a b : str * nat) : bool := (b.2 <= a.2)%N.

Definition stat_rows (keys_order : seq str -> seq str) (fs : seq str)
  : seq (str * nat) :=
  sort by_count [seq (k, dict_count (tally fs) k)
                | k <- keys_order (dict_keys (tally fs))].

Definition NUL : ascii := "000"%char.

Definition is_upper (c : ascii) : bool :=
  ((65 <= nat_of_ascii c) && (nat_of_ascii c <= 90))%N.

Definition no_files : str -> option str := fun _ => None.

Definition Inigo : str :=
  str_of "Hello. My Name is Inigo Monotoya. You killed my father. Prepare to die.".


(* ====================================================================== *)
(*  Loops                                                                 *)
(* ====================================================================== *)

Lemma eq_for {I S : Type} (r : seq I) (b1 b2 : I -> S -> result S) s :
  (forall i s', b1 i s' = b2 i s') -> for_ r b1 s = for_ r b2 s.
Proof.
move=> eq_b; elim: r s => [|i r IHr] s //=.
by rewrite eq_b; case: (b2 i s) => //= s'; apply: IHr.
Qed.

Lemma for_map {I J S : Type} (f : J -> I) (r : seq J) (body : I -> S -> result S) s :
  for_ [seq f j | j <- r] body s = for_ r (fun j => body (f j)) s.
Proof.
elim: r s => [|j r IHr] s //=.
by case: (body (f j) s) => //= s'; apply: IHr.
Qed.

Lemma for_range_nth {A S : Type} (d : A) (xs : seq A) (body : A -> S -> result S) s :
  for_ (range (size xs)) (fun i => body (nth d xs i)) s = for_ xs body s.
Proof. by rewrite -for_map -/(mkseq _ _) mkseq_nth. Qed.

Lemma for_append {A B : Type} (f : A -> result B) (xs : seq A) (acc : seq B) :
  for_ xs (fun x acc' => y <- f x ;; ret (acc' ++ [:: y])) acc
  = (ys <- mapM f xs ;; ret (acc ++ ys)).
Proof.
elim: xs acc => [|x xs IHxs] acc /=; first by rewrite cats0.
case: (f x) => //= y; rewrite IHxs.
by case: (mapM f xs) => //= ys; rewrite -catA.
Qed.

Lemma mapM_ok {A B : Type} (f : A -> result B) (g : A -> B) (xs : seq A) :
  (forall x, x \in [pred x | succeeds (f x)] -> f x = inr (g x)) ->
  all (fun x => succeeds (f x)) xs -> mapM f xs = inr [seq g x | x <- xs].
Proof.
move=> fg; elim: xs => [|x xs IHxs] //= /andP[ok_x ok_xs].
by rewrite (fg x ok_x) /= IHxs.
Qed.

Lemma mapM_fail {A B : Type} (f : A -> result B) (e : exn) (xs : seq A) :
  (forall x e', f x = inl e' -> e' = e) ->
  ~~ all (fun x => succeeds (f x)) xs -> mapM f xs = inl e.
Proof.
move=> fe; elim: xs => [|x xs IHxs] //=.
case fx: (f x) => [e'|y] /=; first by rewrite (fe _ _ fx).
by move=> /IHxs ->.
Qed.

(* ====================================================================== *)
(*  CodeForAlphabet: encode and decode                                    *)
(* ====================================================================== *)

Section CodeFacts.

Import CodeForAlphabet.

Variable self : CodeForAlphabet.t.
Hypothesis word_length_1 : __codeword_length self = 1.

Let alphabet := __alphabet_string self.

Lemma encode_mapM text : encode self text = mapM (str_index alphabet) text.
Proof.
rewrite /encode word_length_1 eqxx /=.
rewrite (for_range_nth _ _
  (fun c num_list => k <- str_index alphabet c ;; ret (rcons num_list k))).
rewrite (@eq_for _ _ _ _
  (fun c acc => k <- str_index alphabet c ;; ret (acc ++ [:: k]))).
  by move=> c acc; case: (str_index _ _) => //= k; rewrite cats1.
by rewrite for_append; case: (mapM _ _).
Qed.

Lemma decode_mapM num_list :
  decode self num_list = mapM (str_getitem alphabet) num_list.
Proof.
rewrite /decode word_length_1 eqxx /=.
rewrite (for_range_nth _ _
  (fun k new_string => c <- str_getitem alphabet k ;; ret (new_string ++ [:: c]))).
by rewrite for_append; case: (mapM _ _).
Qed.

Lemma str_getitem_bounds (s : str) k :
  succeeds (str_getitem s k) = in_bounds (size s) k.
Proof.
rewrite /str_getitem /in_bounds; case: (ltrP k 0) => [k_lt0|k0].
  rewrite gtrDr k_lt0 andbT -[0 <= _]subr_ge0 subr0 -lerBlDr sub0r.
  rewrite (lt_le_trans k_lt0) ?andbT //; by case: ifP.
rewrite k0 /= (le_trans _ k0) ?oppr_le0 //=; by case: ifP.
Qed.

Lemma str_getitem_ok (s : str) k :
  succeeds (str_getitem s k) ->
  str_getitem s k = inr (nth "000"%char s (position (size s) k)).
Proof. by rewrite /str_getitem /position; case: ifP. Qed.

Lemma str_getitem_index (s : str) c :
  c \in s -> str_getitem s (Posz (index c s)) = inr c.
Proof.
move=> c_in_s; rewrite /str_getitem /= ltz_nat index_mem c_in_s /=.
by rewrite nth_index.
Qed.

Lemma mapM_index_getitem (text : str) :
  all [in alphabet] text ->
  exists2 l, mapM (str_index alphabet) text = inr l
           & mapM (str_getitem alphabet) l = inr text.
Proof.
elim: text => [|c text IHt] /=; first by exists [::].
case/andP=> c_in /IHt[l -> dec_l]; rewrite /str_index c_in /=.
by exists (Posz (index c alphabet) :: l); rewrite //= str_getitem_index //= dec_l.
Qed.

End CodeFacts.

(* ====================================================================== *)
(*  The block loop of __apply_Hill_matrix__                               *)
(* ====================================================================== *)

Lemma eq_mapM {A B : Type} (f g : A -> result B) (xs : seq A) :
  (forall x, f x = g x) -> mapM f xs = mapM g xs.
Proof. by move=> fg; elim: xs => [|x xs IHxs] //=; rewrite fg IHxs. Qed.

Lemma mapM_map {A B C : Type} (f : B -> result C) (g : A -> B) (xs : seq A) :
  mapM f [seq g x | x <- xs] = mapM (fun x => f (g x)) xs.
Proof. by elim: xs => [|x xs IHxs] //=; rewrite IHxs. Qed.

Lemma for_extend {I B : Type} (f : I -> result (seq B)) (r : seq I) acc :
  for_ r (fun i acc' => w <- f i ;; ret (acc' ++ w)) acc
  = (ws <- mapM f r ;; ret (acc ++ flatten ws)).
Proof.
elim: r acc => [|i r IHr] acc /=; first by rewrite cats0.
case: (f i) => //= w; rewrite IHr.
by case: (mapM f r) => //= ws; rewrite catA.
Qed.

Lemma vector_nums (w : seq int) : vector [seq Num k | k <- w] = inr w.
Proof. by elim: w => [|k w IHw] //=; rewrite IHw. Qed.

Section BlockLoop.

(* block size, order of the ring, key matrix, padding *)
Variables (n m : nat) (A : seq (seq int)) (padding_char : seq item).

Local Notation word := (word n m A padding_char).
Local Notation indices := (indices n).
Local Notation blocks := (blocks n m A padding_char).

Hypothesis n_gt0 : (0 < n)%N.

Lemma range_step_indices stop : range_step stop n = inr (indices stop).
Proof. by rewrite /range_step eqn0Ngt n_gt0. Qed.

Lemma indices0 : indices 0 = [::].
Proof. by rewrite /indices add0n divn_small // prednK. Qed.

Lemma indices_add stop :
  indices (n + stop) = 0%N :: [seq (i + n)%N | i <- indices stop].
Proof.
rewrite /indices -addnA addnC divnDr ?dvdnn // divnn n_gt0 addn1 /=.
rewrite mul0n -[1%N]/(1 + 0)%N iotaDl -!map_comp; congr (_ :: _).
by apply: eq_map => k /=; rewrite mulSn addnC.
Qed.

Lemma blocks_nil : blocks [::] = inr [::].
Proof. by rewrite /blocks /= indices0. Qed.

Lemma word_first (w x : seq int) :
  size w = n -> word (w ++ x) 0 = inr (mulmv m A w).
Proof.
move=> size_w; rewrite /word /slice add0n subn0 drop0 -size_w take_size_cat //.
by rewrite size_map eqxx /= vector_nums.
Qed.

Lemma word_next (w x : seq int) i :
  size w = n -> word (w ++ x) (i + n) = word x i.
Proof.
move=> size_w; rewrite /word /slice drop_cat size_w ltnNge leq_addl /=.
by rewrite addnK !addKn.
Qed.

Lemma blocks_cat (w x : seq int) :
  size w = n -> blocks (w ++ x) = (ys <- blocks x ;; ret (mulmv m A w ++ ys)).
Proof.
move=> size_w; rewrite /blocks size_cat size_w indices_add /= word_first //=.
rewrite mapM_map (eq_mapM (g := word x)); first by move=> i; apply: word_next.
by case: (mapM _ _).
Qed.

Lemma blocks_short (w : seq int) :
  (0 < size w < n)%N -> padding_char = [::] ->
  blocks w = inl (RuntimeError (Additional_padding_is_needed [seq Num k | k <- w])).
Proof.
case/andP=> w_gt0 w_ltn pad_nil; rewrite /blocks /indices.
have -> : ((size w + n.-1) %/ n = 1)%N.
  rewrite -(prednK w_gt0) addSnnS prednK // addnC divnDl ?dvdnn // divnn n_gt0.
  by rewrite divn_small // prednK // (ltnW w_ltn).
rewrite /= mul0n /word /slice add0n subn0 drop0 take_oversize ?(ltnW w_ltn) //.
by rewrite size_map (ltn_eqF w_ltn) pad_nil.
Qed.

End BlockLoop.

Lemma size_mulmv m A v : size (mulmv m A v) = size A.
Proof. by rewrite size_map. Qed.

Lemma canonical_modz (m : nat) (c : int) :
  (0 < m)%N -> canonical m (c %% Posz m)%Z.
Proof.
by move=> m_gt0; rewrite /canonical modz_ge0 ?ltz_pmod // -lt0n.
Qed.

Lemma canonical_mulmv m A v : (0 < m)%N -> all (canonical m) (mulmv m A v).
Proof.
by move=> m_gt0; apply/allP => c /mapP[r _ ->]; apply: canonical_modz.
Qed.

Lemma chunks_ind (n : nat) (P : seq int -> Prop) :
  (0 < n)%N ->
  (forall r, (size r < n)%N -> P r) ->
  (forall w x, size w = n -> P x -> P (w ++ x)) ->
  forall x, P x.
Proof.
move=> n_gt0 Pshort Pcat x.
have [k] := ubnP (size x); elim: k x => // k IHk x; rewrite ltnS => size_x.
have [x_short|x_long] := ltnP (size x) n; first exact: Pshort.
rewrite -(cat_take_drop n x); apply: Pcat; first by rewrite size_takel.
apply: IHk; rewrite size_drop; apply: leq_trans size_x.
by rewrite ltn_subrL n_gt0 (leq_trans n_gt0 x_long).
Qed.

Section BlockFacts.

Variables (n m : nat) (A : seq (seq int)) (padding_char : seq item).
Hypothesis n_gt0 : (0 < n)%N.
Hypothesis size_A : size A = n.

Local Notation blocks := (blocks n m A padding_char).

Lemma blocks_size x :
  (n %| size x)%N -> exists2 y, blocks x = inr y & size y = size x.
Proof.
move: x; apply: (chunks_ind n_gt0) => [r r_short|w x size_w IHx].
  by rewrite /dvdn modn_small // size_eq0 => /eqP->; exists [::]; rewrite // blocks_nil.
rewrite size_cat size_w dvdn_addr ?dvdnn // => /IHx[y blocks_x size_y].
exists (mulmv m A w ++ y); first by rewrite blocks_cat // blocks_x.
by rewrite size_cat size_mulmv size_A size_y.
Qed.

Lemma blocks_padding x :
  ~~ (n %| size x)%N -> padding_char = [::] ->
  blocks x = inl (RuntimeError (Additional_padding_is_needed
                     [seq Num k | k <- drop (size x %/ n * n) x])).
Proof.
move=> + pad_nil; move: x; apply: (chunks_ind n_gt0) => [r r_short|w x size_w IHx].
  rewrite /dvdn modn_small // divn_small // mul0n drop0 size_eq0 -size_eq0 -lt0n.
  by move=> r_gt0; apply: blocks_short; rewrite // r_gt0.
rewrite size_cat size_w dvdn_addr ?dvdnn // => /IHx blocks_x.
rewrite blocks_cat // blocks_x /= divnDl ?dvdnn // divnn n_gt0.
by rewrite mulnDl mul1n addnC -drop_drop -size_w drop_size_cat.
Qed.

Lemma blocks_canonical x y :
  (0 < m)%N -> blocks x = inr y -> all (canonical m) y.
Proof.
move=> m_gt0; rewrite /blocks.
elim: (indices n (size x)) y => [|i r IHr] y /=; first by case=> <-.
rewrite /word; case: (if _ then _ else _) => //= PT_word.
case: (vector PT_word) => //= v.
case: (mapM _ r) IHr => //= ws IHr [<-] /=.
by rewrite all_cat canonical_mulmv //=; apply: IHr.
Qed.

End BlockFacts.

(* ====================================================================== *)
(*  Lists of rows as matrices                                             *)
(* ====================================================================== *)

Lemma sumzE (I : Type) (r : seq I) (F : I -> int) :
  sumz [seq F i | i <- r] = \sum_(i <- r) F i.
Proof. by rewrite /sumz foldrE big_map. Qed.

Lemma sum_iota (n : nat) (F : nat -> int) :
  sumz [seq F j | j <- iota 0 n] = \sum_(j < n) F j.
Proof. by rewrite sumzE -[n in iota 0 n]subn0 -/(index_iota 0 n) big_mkord. Qed.

Lemma dotE (n : nat) (r v : seq int) :
  size r = n -> size v = n -> dot r v = \sum_(j < n) nth 0 r j * nth 0 v j.
Proof.
move=> size_r size_v; rewrite /dot sumzE (big_nth (0, 0)) size_zip size_r size_v.
rewrite minnn big_mkord; apply: eq_bigr => j _.
by rewrite nth_zip ?size_r.
Qed.

Lemma eqz_mod_sum (m : nat) (I : Type) (r : seq I) (F G : I -> int) :
  (forall i, (F i = G i %[mod Posz m])%Z) ->
  (\sum_(i <- r) F i = \sum_(i <- r) G i %[mod Posz m])%Z.
Proof.
move=> eqFG; elim/big_rec2: _ => // i x y _ eq_xy.
by rewrite -modzDm eqFG eq_xy modzDm.
Qed.

Lemma eqmx_mod_mul (m p q r : nat) (M1 M2 : 'M[int]_(p, q))
    (M3 M4 : 'M[int]_(q, r)) :
  eqmx_mod m M1 M2 -> eqmx_mod m M3 M4 -> eqmx_mod m (M1 *m M3) (M2 *m M4).
Proof.
move=> eq12 eq34 i k; rewrite !mxE; apply: eqz_mod_sum => j.
by rewrite -modzMm eq12 eq34 modzMm.
Qed.

Lemma eqmx_mod_refl (m p q : nat) (M : 'M[int]_(p, q)) : eqmx_mod m M M.
Proof. by []. Qed.

Lemma eqmx_mod_trans (m p q : nat) (M1 M2 M3 : 'M[int]_(p, q)) :
  eqmx_mod m M1 M2 -> eqmx_mod m M2 M3 -> eqmx_mod m M1 M3.
Proof. by move=> eq12 eq23 i j; rewrite eq12. Qed.

Lemma is_squareP (n : nat) (A : seq (seq int)) :
  is_square n A -> size A = n /\ forall i, (i < n)%N -> size (nth [::] A i) = n.
Proof.
case/andP=> /eqP size_A /allP sq; split=> // i i_lt_n.
by apply/eqP/sq/mem_nth; rewrite size_A.
Qed.

Lemma mulmvE (m n : nat) (A : seq (seq int)) (v : seq int) (i : 'I_n) :
  is_square n A -> size v = n ->
  nth 0 (mulmv m A v) i = ((mx n A *m cv n v) i ord0 %% Posz m)%Z.
Proof.
case/is_squareP=> size_A size_row size_v.
rewrite (nth_map [::]) ?size_A // (dotE (size_row _ _)) // mxE.
by congr (_ %% _)%Z; apply: eq_bigr => j _; rewrite !mxE.
Qed.

Lemma cv_mulmv (m n : nat) (A : seq (seq int)) (v : seq int) :
  is_square n A -> size v = n ->
  eqmx_mod m (cv n (mulmv m A v)) (mx n A *m cv n v).
Proof.
move=> sqA size_v i j; rewrite [in LHS]mxE mulmvE // (ord1 j).
by rewrite modz_mod.
Qed.

(* ---------------------------------------------------------------------- *)
(*  Determinant and adjugate of a list of rows                            *)
(* ---------------------------------------------------------------------- *)

Lemma nth_remove (T : Type) (d : T) (j : nat) (s : seq T) (k : nat) :
  nth d (remove j s) k = nth d s (bump j k).
Proof.
rewrite /remove /bump; have [j_lt|j_ge] := ltnP j (size s); last first.
  rewrite take_oversize // drop_oversize ?(leqW j_ge) // cats0.
  have [j_le_k|//] := leqP j k.
  by rewrite !nth_default // ?add1n ?leqW // (leq_trans j_ge).
rewrite nth_cat size_take j_lt; have [k_lt_j|j_le_k] := ltnP k j.
  by rewrite nth_take.
by rewrite nth_drop add1n addSn subnKC.
Qed.

Lemma nth_map_default (T U : Type) (f : T -> U) (d : T) (s : seq T) (k : nat) :
  nth (f d) [seq f x | x <- s] k = f (nth d s k).
Proof. by elim: s k => [|x s IHs] [|k] /=. Qed.

Lemma mx_minor (n : nat) (A : seq (seq int)) (i j : 'I_n.+1) :
  mx n (minor i j A) = row' i (col' j (mx n.+1 A)).
Proof.
apply/matrixP=> a b; rewrite !mxE /minor.
by rewrite (nth_map_default (remove j) [::]) !nth_remove.
Qed.

Lemma detS (n : nat) (A : seq (seq int)) :
  det n.+1 A =
  sumz [seq nth 0 (nth [::] A 0) j * ((-1) ^+ j * det n (minor 0 j A))
       | j <- iota 0 n.+1].
Proof. by []. Qed.

Lemma det_mx (n : nat) (A : seq (seq int)) : det n A = \det (mx n A).
Proof.
elim: n A => [|n IHn] A; first by rewrite det_mx00.
rewrite detS sum_iota (expand_det_row _ ord0).
apply: eq_bigr => j _; rewrite mxE /cofactor add0n.
by rewrite IHn (mx_minor A ord0 j).
Qed.

Lemma adjugate_cofactor (n : nat) (A : seq (seq int)) (i j : 'I_n) :
  nth 0 (nth [::] (adjugate n A) i) j = cofactor (mx n A) j i.
Proof.
case: n i j => [[]|n] // i j.
rewrite /adjugate (nth_map 0%N) ?size_iota // (nth_map 0%N) ?size_iota //.
by rewrite !nth_iota // !add0n /cofactor det_mx mx_minor.
Qed.

Lemma eq_rows (n : nat) (A B : seq (seq int)) :
  is_square n A -> is_square n B ->
  (forall i j : 'I_n, nth 0 (nth [::] A i) j = nth 0 (nth [::] B i) j) ->
  A = B.
Proof.
case/is_squareP=> size_A row_A /is_squareP[size_B row_B] eqAB.
apply: (@eq_from_nth _ [::]); rewrite size_A ?size_B // => i i_lt_n.
apply: (@eq_from_nth _ 0); rewrite row_A ?row_B // => j j_lt_n.
exact: (eqAB (Ordinal i_lt_n) (Ordinal j_lt_n)).
Qed.






(* ... and undo each other on vectors. *)
Lemma mulmv_left_inverse (m n : nat) (A B : seq (seq int)) (v : seq int) :
  is_square n A -> is_square n B ->
  eqmx_mod m (mx n B *m mx n A) 1%:M ->
  size v = n ->
  mulmv m B (mulmv m A v) = [seq (c %% Posz m)%Z | c <- v].
Proof.
move=> sqA sqB BA1 size_v.
have [size_A _] := is_squareP sqA; have [size_B _] := is_squareP sqB.
apply: (@eq_from_nth _ 0); rewrite size_mulmv size_B ?size_map ?size_v //.
move=> i i_lt_n; rewrite (mulmvE m (Ordinal i_lt_n)) ?size_mulmv //.
rewrite (nth_map 0) ?size_v //.
have -> : nth 0 v i = ((1%:M : 'M_n) *m cv n v) (Ordinal i_lt_n) ord0.
  by rewrite mul1mx mxE.
have /(_ (Ordinal i_lt_n) ord0) -> //:
  eqmx_mod m (mx n B *m cv n (mulmv m A v)) (1%:M *m cv n v).
apply: eqmx_mod_trans (eqmx_mod_mul BA1 (@eqmx_mod_refl m _ _ (cv n v))).
rewrite -mulmxA; apply: eqmx_mod_mul; first exact: eqmx_mod_refl.
exact: cv_mulmv.
Qed.

(* ---------------------------------------------------------------------- *)
(*  inverse() returns a two-sided inverse modulo the order of the ring    *)
(* ---------------------------------------------------------------------- *)

Lemma size_adjugate (n : nat) (A : seq (seq int)) : size (adjugate n A) = n.
Proof. by rewrite size_map size_iota. Qed.

Lemma size_adjugate_row (n : nat) (A : seq (seq int)) (i : nat) :
  (i < n)%N -> size (nth [::] (adjugate n A) i) = n.
Proof.
by move=> i_lt_n; rewrite (nth_map 0%N) ?size_iota // size_map size_iota.
Qed.

Lemma is_square_adjugate (n : nat) (A : seq (seq int)) (f : int -> int) :
  is_square n [seq [seq f c | c <- r] | r <- adjugate n A].
Proof.
rewrite /is_square !size_map size_iota eqxx /=.
apply/allP=> r /mapP[r' /mapP[i _ ->] ->].
by rewrite !size_map size_iota.
Qed.

Lemma unit_mod_egcdz (d : int) (m : nat) :
  gcdz d (Posz m) = 1%N ->
  ((egcdz d (Posz m)).1 * d = 1 %[mod Posz m])%Z.
Proof.
move=> gcd1; case: egcdzP => u v /= Bezout _.
by rewrite -(modzMDl v) addrC Bezout gcd1.
Qed.

Lemma inverse_mx (M M' : matrix) :
  inverse M = inr M' ->
  let m := order_of (base_ring M) in
  let n := nrows M in
  [/\ (0 < m)%N, base_ring M' = base_ring M,
      is_square n (rows M) & is_square n (rows M')]
  /\ (eqmx_mod m (mx n (rows M) *m mx n (rows M')) 1%:M
      /\ eqmx_mod m (mx n (rows M') *m mx n (rows M)) 1%:M).
Proof.
rewrite /inverse /=; case: ifP => // /negbFE sqM.
case: ifP => // /negbT; rewrite -lt0n => m_gt0.
case: ifP => // /negbFE/eqP unit_d [<-] /=.
set u := (egcdz _ _).1; set m := order_of _; set n := nrows M.
have sqM' := is_square_adjugate n (rows M) (fun c => (u * c %% Posz m)%Z).
have eqM' : eqmx_mod m (mx n [seq [seq (u * c %% Posz m)%Z | c <- r]
                              | r <- adjugate n (rows M)])
                       (u *: \adj (mx n (rows M))).
  move=> i j; rewrite !mxE -adjugate_cofactor.
  rewrite (nth_map_default (map (fun c => (u * c %% Posz m)%Z)) [::]).
  by rewrite (nth_map 0) ?size_adjugate_row // modz_mod.
have ud1 : eqmx_mod m (u *: (\det (mx n (rows M)))%:M) (1%:M : 'M_n).
  move=> i j; rewrite !mxE -det_mx; case: (i == j); last by rewrite !mulr0n mulr0.
  by rewrite !mulr1n; apply: unit_mod_egcdz.
do 2![split=> //].
- apply: eqmx_mod_trans (eqmx_mod_mul (@eqmx_mod_refl m _ _ _) eqM') _.
  by rewrite -scalemxAr mul_mx_adj.
- apply: eqmx_mod_trans (eqmx_mod_mul eqM' (@eqmx_mod_refl m _ _ _)) _.
  by rewrite -scalemxAl mul_adj_mx.
Qed.

(* ---------------------------------------------------------------------- *)
(*  Reduction of the entries modulo m                                     *)
(* ---------------------------------------------------------------------- *)

Lemma is_square_reduce (m n : nat) (A : seq (seq int)) :
  is_square n (reduce m A) = is_square n A.
Proof.
rewrite /is_square /reduce size_map all_map; congr (_ && _).
by apply: eq_all => r /=; rewrite size_map.
Qed.

Lemma nth_reduce (m : nat) (A : seq (seq int)) (i j : nat) :
  nth 0 (nth [::] (reduce m A) i) j = (nth 0 (nth [::] A i) j %% Posz m)%Z.
Proof.
rewrite /reduce (nth_map_default (map (fun c => (c %% Posz m)%Z)) [::]).
by rewrite -[0 in LHS](mod0z (Posz m)) (nth_map_default (fun c => (c %% Posz m)%Z)).
Qed.

Lemma mx_reduce (m n : nat) (A : seq (seq int)) :
  eqmx_mod m (mx n (reduce m A)) (mx n A).
Proof. by move=> i j; rewrite !mxE nth_reduce modz_mod. Qed.

Lemma map_remove (T U : Type) (f : T -> U) (j : nat) (s : seq T) :
  [seq f x | x <- remove j s] = remove j [seq f x | x <- s].
Proof. by rewrite /remove map_cat map_take map_drop. Qed.

Lemma minor_reduce (m i j : nat) (A : seq (seq int)) :
  minor i j (reduce m A) = reduce m (minor i j A).
Proof.
rewrite /minor /reduce -map_remove -!map_comp; apply: eq_map => r /=.
by rewrite map_remove.
Qed.

Lemma det_reduce (m n : nat) (A : seq (seq int)) :
  (det n (reduce m A) = det n A %[mod Posz m])%Z.
Proof.
elim: n A => [|n IHn] A //; rewrite !detS !sumzE; apply: eqz_mod_sum => j.
have eq_cofactor :
  ((-1) ^+ j * det n (reduce m (minor 0 j A))
   = (-1) ^+ j * det n (minor 0 j A) %[mod Posz m])%Z.
  by rewrite -modzMmr IHn modzMmr.
by rewrite minor_reduce nth_reduce modzMml -modzMmr eq_cofactor modzMmr.
Qed.

(* ====================================================================== *)
(*  HillCipher: what construction establishes                             *)
(* ====================================================================== *)

Section EngineFacts.

Import HillCipher.

Lemma initE arg1 arg2 flag :
  __init__ arg1 arg2 flag =
  (N_mod_matrix <- init_matrix arg1 arg2 ;;
   match inverse N_mod_matrix.2 with
   | inr mod_matrix_inv =>
       ret (if flag then Make mod_matrix_inv N_mod_matrix.2 N_mod_matrix.1
            else Make N_mod_matrix.2 mod_matrix_inv N_mod_matrix.1)
   | inl _ => raise UnboundLocalError
   end).
Proof.
rewrite /__init__ -/(init_matrix arg1 arg2).
case: (init_matrix arg1 arg2) => //= -[N mod_matrix] /=.
by case: (inverse mod_matrix) => //= mod_matrix_inv; case: flag.
Qed.

Lemma wf_enc_order self :
  well_formed self -> order_of (base_ring (__encryption_matrix self)) = order self.
Proof. by move=> wf; rewrite (wf_enc_ring wf). Qed.

Lemma wf_dec_order self :
  well_formed self -> order_of (base_ring (__decryption_matrix self)) = order self.
Proof. by move=> wf; rewrite (wf_dec_ring wf). Qed.

Lemma init_matrix_ring arg1 arg2 N mod_matrix :
  init_matrix arg1 arg2 = inr (N, mod_matrix) ->
  base_ring mod_matrix = IntegerModRing N.
Proof.
case: arg2 => [N'|] /=.
  by rewrite /base_extend; case: ifP => //= _ [<- <-].
by case: ifP => //= _ [<- <-]; case: (base_ring arg1).
Qed.

Lemma init_well_formed arg1 arg2 flag self :
  __init__ arg1 arg2 flag = inr self -> well_formed self.
Proof.
rewrite initE; case init_M: (init_matrix _ _) => [//|[N M]] /=.
have ring_M := init_matrix_ring init_M.
case inv_M: (inverse M) => [//|M'] /=.
have [[m_gt0 ring_M' sqM sqM'] [MM' M'M]] := inverse_mx inv_M.
have size_M' : nrows M' = nrows M.
  by case/is_squareP: sqM'.
rewrite ring_M /= in m_gt0 MM' M'M.
by case: flag => -[<-]; split; rewrite /order /block_size /= ?size_M' ?ring_M'.
Qed.

End EngineFacts.

Section ApplyFacts.

Import HillCipher.

Variable self : HillCipher.t.
Hypothesis wf : well_formed self.

Let n := block_size self.
Let m := order self.

Local Notation enc_rows := (enc_rows self).
Local Notation dec_rows := (dec_rows self).

Lemma apply_blocks (key_matrix : matrix) x padding_char :
  (0 < n)%N ->
  is_square n (rows key_matrix) ->
  order_of (base_ring key_matrix) = m ->
  __apply_Hill_matrix__ self key_matrix x padding_char
  = blocks n m (reduce m (rows key_matrix)) padding_char x.
Proof.
move=> n_gt0 sqK ringK.
rewrite /__apply_Hill_matrix__ /MatrixSpace -/n sqK ringK /= -/(order self) -/m.
rewrite dvdnn /= range_step_indices //= /blocks.
rewrite (@eq_for _ _ _ _ (fun i acc =>
  w <- word n m (reduce m (rows key_matrix)) padding_char x i ;; ret (acc ++ w))).
  move=> i acc; rewrite /word.
  by case: (if _ then _ else _) => //= PT_word; case: (vector _).
by rewrite for_extend.
Qed.

Lemma encryptE x padding_char :
  (0 < n)%N -> encrypt self x padding_char = blocks n m enc_rows [::] x.
Proof.
by move=> n_gt0; apply: apply_blocks; rewrite ?(wf_enc_square wf) ?wf_enc_order.
Qed.

Lemma decryptE x padding_char :
  (0 < n)%N -> decrypt self x padding_char = blocks n m dec_rows [::] x.
Proof.
by move=> n_gt0; apply: apply_blocks; rewrite ?(wf_dec_square wf) ?wf_dec_order.
Qed.

Lemma is_square_enc_rows : is_square n enc_rows.
Proof. by rewrite is_square_reduce (wf_enc_square wf). Qed.

Lemma is_square_dec_rows : is_square n dec_rows.
Proof. by rewrite is_square_reduce (wf_dec_square wf). Qed.

Lemma dec_enc_rows : eqmx_mod m (mx n dec_rows *m mx n enc_rows) 1%:M.
Proof.
apply: eqmx_mod_trans (wf_dec_enc wf).
by apply: eqmx_mod_mul; apply: mx_reduce.
Qed.

Lemma enc_dec_rows : eqmx_mod m (mx n enc_rows *m mx n dec_rows) 1%:M.
Proof.
apply: eqmx_mod_trans (wf_enc_dec wf).
by apply: eqmx_mod_mul; apply: mx_reduce.
Qed.

(* Decrypting what the blocks of [x] encrypt to gives [x] modulo m. *)
Lemma blocks_round_trip x :
  (0 < n)%N -> (n %| size x)%N ->
  exists2 y, blocks n m enc_rows [::] x = inr y
           & blocks n m dec_rows [::] y = inr [seq (c %% Posz m)%Z | c <- x].
Proof.
move=> n_gt0; move: x; apply: (chunks_ind n_gt0) => [r r_short|w x size_w IHx].
  rewrite /dvdn modn_small // size_eq0 => /eqP->.
  by exists [::]; rewrite blocks_nil.
rewrite size_cat size_w dvdn_addr ?dvdnn // => /IHx[y enc_x dec_y].
exists (mulmv m enc_rows w ++ y); first by rewrite blocks_cat // enc_x.
have [size_enc _] := is_squareP is_square_enc_rows.
rewrite blocks_cat ?size_mulmv // dec_y /= map_cat.
by rewrite (mulmv_left_inverse is_square_enc_rows is_square_dec_rows dec_enc_rows).
Qed.

End ApplyFacts.


(* ====================================================================== *)
(*  The properties of the specification                                   *)
(* ====================================================================== *)

(* The docstring of HillCipher: the two keys, and the ciphertext. *)
Example init_A1234 : HillCipher.__init__ A1234 (Some 3%:Z) false = inr H1234.
Proof. by vm_compute. Qed.

Example encrypt_A1234 :
  HillCipher.encrypt H1234 [:: 0; 0; 0; 1; 1; 1; 2; 2] [::]
  = inr [:: 0; 0; 2; 1; 0; 1; 0; 2].
Proof. by vm_compute. Qed.

Example decrypt_A1234 :
  HillCipher.decrypt H1234 [:: 0; 0; 2; 1; 0; 1; 0; 2] [::]
  = inr [:: 0; 0; 0; 1; 1; 1; 2; 2].
Proof. by vm_compute. Qed.

Lemma in_range_modz (N c : int) : in_range N c -> (c %% Posz `|N|)%Z = c.
Proof. by move=> c_range; rewrite modz_abs modz_small. Qed.

Lemma canonical_in_range (N : int) (y : seq int) :
  0 < N -> all (canonical `|N|) y -> all (in_range N) y.
Proof.
move=> N_gt0; apply: sub_all => c; rewrite /canonical /in_range.
by rewrite gtz0_abs.
Qed.

(** C1, as the code has it: for every successfully constructed engine of
    block size n >= 1 and every integer sequence x whose length is a
    multiple of n, encrypt(x) succeeds and decrypt(encrypt(x)) is x with
    every entry reduced modulo N; it is x itself when every entry of x lies
    in [0, N). *)
Theorem decrypt_encrypt arg1 arg2 flag self x padding_char padding_char' :
  HillCipher.__init__ arg1 arg2 flag = inr self ->
  (0 < HillCipher.block_size self)%N ->
  (HillCipher.block_size self %| size x)%N ->
  exists y,
    [/\ HillCipher.encrypt self x padding_char = inr y,
        HillCipher.decrypt self y padding_char'
        = inr [seq (c %% HillCipher.modulus self)%Z | c <- x]
      & all (in_range (HillCipher.modulus self)) x ->
        HillCipher.decrypt self y padding_char' = inr x].
Proof.
move=> /init_well_formed wf n_gt0 n_dvd.
have [y enc_x dec_y] := blocks_round_trip wf n_gt0 n_dvd.
exists y; rewrite encryptE // decryptE // dec_y.
have -> : [seq (c %% Posz (order self))%Z | c <- x]
          = [seq (c %% HillCipher.modulus self)%Z | c <- x].
  by apply: eq_map => c; rewrite /order modz_abs.
split=> // x_range; congr inr; rewrite -[RHS]map_id; apply/eq_in_map => c c_in_x.
by rewrite -modz_abs in_range_modz // (allP x_range).
Qed.

Lemma decrypt_encrypt_witness :
  exists y,
    [/\ HillCipher.encrypt H1234 [:: 0; 0; 0; 1; 1; 1; 2; 2] [::] = inr y,
        HillCipher.decrypt H1234 y [::]
        = inr [seq (c %% HillCipher.modulus H1234)%Z
              | c <- [:: 0; 0; 0; 1; 1; 1; 2; 2]]
      & all (in_range (HillCipher.modulus H1234)) [:: 0; 0; 0; 1; 1; 1; 2; 2] ->
        HillCipher.decrypt H1234 y [::] = inr [:: 0; 0; 0; 1; 1; 1; 2; 2]].
Proof.
apply: (@decrypt_encrypt A1234 (Some 3%:Z) false H1234).
- by vm_compute.
- by vm_compute.
- by vm_compute.
Defined.

(** C1, as the specification words it, fails: with the key [1 2; 3 4] over
    Z/3Z the sequence [3, 0] has a length that is a multiple of the block
    size, and decrypt(encrypt([3, 0])) is [0, 0]. *)
Lemma round_trip_out_of_range :
  [/\ HillCipher.__init__ A1234 (Some 3%:Z) false = inr H1234,
      (HillCipher.block_size H1234 %| size [:: 3%:Z; 0%:Z])%N,
      HillCipher.encrypt H1234 [:: 3; 0] [::] = inr [:: 0; 0],
      HillCipher.decrypt H1234 [:: 0; 0] [::] = inr [:: 0; 0]
    & [:: 0; 0] <> [:: 3%:Z; 0]].
Proof. by split; vm_compute. Qed.

(** C2, what the code does: encrypt and decrypt pass the empty padding on
    whatever the caller supplied, so for every engine of block size n >= 1
    and every input whose length is not a multiple of n both fail with the
    RuntimeError that asks for padding, reporting the under-length last
    word, also when a single padding value was given. *)
Theorem padding_char_is_dropped arg1 arg2 flag self x padding_char :
  HillCipher.__init__ arg1 arg2 flag = inr self ->
  (0 < HillCipher.block_size self)%N ->
  ~~ (HillCipher.block_size self %| size x)%N ->
  let PT_word :=
    [seq Num k | k <- drop (size x %/ HillCipher.block_size self
                            * HillCipher.block_size self) x] in
  HillCipher.encrypt self x padding_char
    = inl (RuntimeError (Additional_padding_is_needed PT_word))
  /\ HillCipher.decrypt self x padding_char
    = inl (RuntimeError (Additional_padding_is_needed PT_word)).
Proof.
move=> /init_well_formed wf n_gt0 n_ndvd /=.
by rewrite encryptE // decryptE // !blocks_padding.
Qed.

Lemma padding_char_is_dropped_witness :
  HillCipher.encrypt H1234 [:: 0; 0; 0] [:: Num 0]
    = inl (RuntimeError (Additional_padding_is_needed [:: Num 0]))
  /\ HillCipher.decrypt H1234 [:: 0; 0; 0] [:: Num 0]
    = inl (RuntimeError (Additional_padding_is_needed [:: Num 0])).
Proof.
apply: (@padding_char_is_dropped A1234 (Some 3%:Z) false H1234
          [:: 0; 0; 0] [:: Num 0]).
- by vm_compute.
- by vm_compute.
- by vm_compute.
Defined.

(** C9: for every successfully constructed engine with modulus N > 0 and
    block size n >= 1, every successful call of encrypt or decrypt returns
    integers of [0, N) only, and the empty sequence is encrypted and
    decrypted to the empty sequence. *)
Theorem outputs_canonical arg1 arg2 flag self padding_char :
  HillCipher.__init__ arg1 arg2 flag = inr self ->
  0 < HillCipher.modulus self ->
  (0 < HillCipher.block_size self)%N ->
  [/\ forall x y, HillCipher.encrypt self x padding_char = inr y ->
                  all (in_range (HillCipher.modulus self)) y,
      forall x y, HillCipher.decrypt self x padding_char = inr y ->
                  all (in_range (HillCipher.modulus self)) y,
      HillCipher.encrypt self [::] padding_char = inr [::]
    & HillCipher.decrypt self [::] padding_char = inr [::]].
Proof.
move=> /init_well_formed wf N_gt0 n_gt0.
have m_gt0 := wf_order wf.
split=> [x y|x y||]; rewrite ?encryptE ?decryptE ?blocks_nil //.
- by move/(blocks_canonical m_gt0); apply: canonical_in_range.
- by move/(blocks_canonical m_gt0); apply: canonical_in_range.
Qed.

Lemma outputs_canonical_witness :
  [/\ forall x y, HillCipher.encrypt H1234 x [::] = inr y ->
                  all (in_range (HillCipher.modulus H1234)) y,
      forall x y, HillCipher.decrypt H1234 x [::] = inr y ->
                  all (in_range (HillCipher.modulus H1234)) y,
      HillCipher.encrypt H1234 [::] [::] = inr [::]
    & HillCipher.decrypt H1234 [::] [::] = inr [::]].
Proof.
apply: (@outputs_canonical A1234 (Some 3%:Z) false H1234 [::]).
- by vm_compute.
- by vm_compute.
- by vm_compute.
Defined.

(** C10: for every successfully constructed engine of block size n >= 1
    and every input whose length is a multiple of n, encrypt and decrypt
    each succeed and return a sequence as long as the input. *)
Theorem output_length arg1 arg2 flag self x padding_char :
  HillCipher.__init__ arg1 arg2 flag = inr self ->
  (0 < HillCipher.block_size self)%N ->
  (HillCipher.block_size self %| size x)%N ->
  (exists2 y, HillCipher.encrypt self x padding_char = inr y & size y = size x)
  /\ (exists2 y, HillCipher.decrypt self x padding_char = inr y
               & size y = size x).
Proof.
move=> /init_well_formed wf n_gt0 n_dvd.
have [size_enc _] := is_squareP (is_square_enc_rows wf).
have [size_dec _] := is_squareP (is_square_dec_rows wf).
by rewrite encryptE // decryptE //; split; apply: blocks_size.
Qed.

Lemma output_length_witness :
  (exists2 y, HillCipher.encrypt H1234 [:: 0; 0; 0; 1; 1; 1; 2; 2] [::] = inr y
            & size y = size [:: 0%:Z; 0%:Z; 0%:Z; 1%:Z; 1%:Z; 1%:Z; 2%:Z; 2%:Z])
  /\ (exists2 y, HillCipher.decrypt H1234 [:: 0; 0; 0; 1; 1; 1; 2; 2] [::] = inr y
               & size y = size [:: 0%:Z; 0%:Z; 0%:Z; 1%:Z; 1%:Z; 1%:Z; 2%:Z; 2%:Z]).
Proof.
apply: (@output_length A1234 (Some 3%:Z) false H1234).
- by vm_compute.
- by vm_compute.
- by vm_compute.
Defined.

(** C3, as the code has it: for every alphabet string and every
    word_length <> 1 the construction succeeds and stores both arguments;
    it is every later call of encode or decode that fails with
    NotImplementedError. *)
Theorem word_length_checked_on_use alphabet_string word_length :
  word_length != 1 ->
  exists2 self,
    CodeForAlphabet.__init__ alphabet_string word_length = inr self
    & forall text_str num_list,
        CodeForAlphabet.encode self text_str = inl NotImplementedError
        /\ CodeForAlphabet.decode self num_list = inl NotImplementedError.
Proof.
move=> length_neq1; exists (CodeForAlphabet.Make word_length alphabet_string) => //.
by move=> text_str num_list; rewrite /CodeForAlphabet.encode /CodeForAlphabet.decode /= length_neq1.
Qed.

Lemma word_length_checked_on_use_witness :
  exists2 self,
    CodeForAlphabet.__init__ ABCDE 2 = inr self
    & forall text_str num_list,
        CodeForAlphabet.encode self text_str = inl NotImplementedError
        /\ CodeForAlphabet.decode self num_list = inl NotImplementedError.
Proof. by apply: (@word_length_checked_on_use ABCDE 2). Defined.

(** C3, as the specification words it, fails: constructing a code of word
    length 2 over "ABCDE" does not fail with NotImplementedError, it
    returns the object. *)
Lemma init_word_length_2 :
  CodeForAlphabet.__init__ ABCDE 2 = inr (CodeForAlphabet.Make 2 ABCDE)
  /\ CodeForAlphabet.__init__ ABCDE 2 <> inl NotImplementedError.
Proof. by []. Qed.

(** C4, as the code has it: for a code of word length 1 over an alphabet
    of length L, decode succeeds exactly on the lists whose integers all
    lie in [-L, L), a negative k reading the character at L + k, and it
    fails with IndexError on every list with an integer outside [-L, L). *)
Theorem decode_bounds self num_list :
  CodeForAlphabet.__codeword_length self = 1 ->
  let alphabet := CodeForAlphabet.__alphabet_string self in
  let L := size alphabet in
  (all (in_bounds L) num_list ->
   CodeForAlphabet.decode self num_list
   = inr [seq nth "000"%char alphabet (position L k) | k <- num_list])
  /\ (~~ all (in_bounds L) num_list ->
      CodeForAlphabet.decode self num_list = inl IndexError).
Proof.
move=> length_1 alphabet L; rewrite decode_mapM //; split=> bounds.
  apply: mapM_ok => [k|]; first exact: str_getitem_ok.
  by apply: sub_all bounds => k; rewrite str_getitem_bounds.
apply: mapM_fail => [k e|].
  by rewrite /str_getitem; case: ifP => // _ [].
by apply: contraNN bounds; apply: sub_all => k; rewrite str_getitem_bounds.
Qed.

Lemma decode_bounds_witness :
  CodeForAlphabet.decode (CodeForAlphabet.Make 1 ABCDE) [:: 0; 4; -1; -5]
    = inr [seq nth "000"%char ABCDE (position (size ABCDE) k)
          | k <- [:: 0; 4; -1; -5]]
  /\ CodeForAlphabet.decode (CodeForAlphabet.Make 1 ABCDE) [:: 0; 5]
    = inl IndexError.
Proof.
split.
- apply: (proj1 (@decode_bounds (CodeForAlphabet.Make 1 ABCDE)
                   [:: 0; 4; -1; -5] (erefl _))).
  by vm_compute.
- apply: (proj2 (@decode_bounds (CodeForAlphabet.Make 1 ABCDE)
                   [:: 0; 5] (erefl _))).
  by vm_compute.
Defined.

(** C4, as the specification words it, fails: over "ABCDE" the list [-1]
    holds an integer outside [0, 5), and decode returns "E". *)
Lemma decode_negative_index :
  ~~ all (in_range 5) [:: -1]
  /\ CodeForAlphabet.decode (CodeForAlphabet.Make 1 ABCDE) [:: -1]
     = inr (str_of "E").
Proof. by split; vm_compute. Qed.

(** C6: for every code of word length 1 whose alphabet has no repeated
    character and every text made of characters of the alphabet, encode
    succeeds and decode returns the text from its result; over "ABCDE",
    "AAABCEE" is encoded as [0,0,0,1,2,4,4] and that list is decoded as
    "AAABCEE". *)
Theorem decode_encode :
  (forall self text_str,
     CodeForAlphabet.__codeword_length self = 1 ->
     uniq (CodeForAlphabet.__alphabet_string self) ->
     all [in CodeForAlphabet.__alphabet_string self] text_str ->
     exists2 num_list,
       CodeForAlphabet.encode self text_str = inr num_list
       & CodeForAlphabet.decode self num_list = inr text_str)
  /\ (CodeForAlphabet.encode (CodeForAlphabet.Make 1 ABCDE) (str_of "AAABCEE")
        = inr [:: 0; 0; 0; 1; 2; 4; 4]
      /\ CodeForAlphabet.decode (CodeForAlphabet.Make 1 ABCDE)
           [:: 0; 0; 0; 1; 2; 4; 4]
        = inr (str_of "AAABCEE")).
Proof.
split; last by split; vm_compute.
move=> self text_str length_1 _ text_in.
have [num_list enc dec] := mapM_index_getitem text_in.
by exists num_list; rewrite ?encode_mapM ?decode_mapM.
Qed.

Lemma decode_encode_witness :
  exists2 num_list,
    CodeForAlphabet.encode (CodeForAlphabet.Make 1 ABCDE) (str_of "BADE")
    = inr num_list
    & CodeForAlphabet.decode (CodeForAlphabet.Make 1 ABCDE) num_list
      = inr (str_of "BADE").
Proof.
apply: (proj1 decode_encode (CodeForAlphabet.Make 1 ABCDE) (str_of "BADE")).
- by [].
- by vm_compute.
- by vm_compute.
Defined.

(* ====================================================================== *)
(*  HillCipher objects: the store under the caller's actions              *)
(* ====================================================================== *)

































(* The docstring's [H3 = HillCipher(A3)], followed by [A3[0,0] = 0]: the
   engine's encryption key is the caller's matrix, and the product of the
   keys is no longer the identity. *)
Example keys_not_inverse_A3 :
  let A3_inv := Matrix (IntegerModRing 3) [:: [:: 1; 1]; [:: 0; 1]] in
  let H3 := HillCipherObject.Make 0 1 3 in
  let w := world_after_init [:: A3] [:: A3; A3_inv] in
  [/\ HillCipherObject.__init__ [:: A3] 0 None false
      = inr ([:: A3; A3_inv], H3),
      key_product H3 w
      = inr (Matrix (IntegerModRing 3) [:: [:: 1; 0]; [:: 0; 1]]),
      permitted H3 [:: Setitem 0 0 0 0] w
    & key_product H3 (after H3 [:: Setitem 0 0 0 0] w)
      = inr (Matrix (IntegerModRing 3) [:: [:: 0; 2]; [:: 0; 1]])].
Proof. by vm_compute. Qed.

(* The docstring's [H = HillCipher(A, 3)], followed by [A[0,0] = 0]: the
   engine's keys are matrices of its own. *)
Example keys_inverse_A1234 :
  let E := Matrix (IntegerModRing 3) [:: [:: 1; 2]; [:: 0; 1]] in
  let D := Matrix (IntegerModRing 3) [:: [:: 1; 1]; [:: 0; 1]] in
  let H := HillCipherObject.Make 1 2 3 in
  let w := world_after_init [:: A1234] [:: A1234; E; D] in
  [/\ HillCipherObject.__init__ [:: A1234] 0 (Some 3%:Z) false
      = inr ([:: A1234; E; D], H),
      permitted H [:: Setitem 0 0 0 0] w
    & key_product H (after H [:: Setitem 0 0 0 0] w)
      = inr (Matrix (IntegerModRing 3) [:: [:: 1; 0]; [:: 0; 1]])].
Proof. by vm_compute. Qed.




Lemma inverse_not_unit (R : ring) (A : seq (seq int)) :
  (0 < order_of R)%N ->
  is_square (size A) A ->
  gcdz (det (size A) A) (Posz (order_of R)) != 1%N ->
  inverse (Matrix R A) = inl ZeroDivisionError.
Proof.
move=> m_gt0 sqA not_unit; rewrite /inverse /nrows /= sqA /=.
by rewrite eqn0Ngt m_gt0 /= not_unit.
Qed.

Lemma inverse_reduce_not_unit (R : ring) (A : seq (seq int)) :
  (0 < order_of R)%N ->
  is_square (size A) A ->
  gcdz (det (size A) A) (Posz (order_of R)) != 1%N ->
  inverse (Matrix R (reduce (order_of R) A)) = inl ZeroDivisionError.
Proof.
move=> m_gt0 sqA not_unit; apply: inverse_not_unit => //.
  by rewrite size_map is_square_reduce.
by rewrite size_map -gcdz_modl det_reduce gcdz_modl.
Qed.

(** C7, what the code does: for every square matrix whose determinant is
    not a unit modulo N >= 2, given over ZZ with the modulus N or given
    over Z/NZ without a modulus, the construction fails, but with
    UnboundLocalError: the handler that is to raise the RuntimeError
    "Cannot find the inverse of the matrix" names mod_matrix_inv, which is
    not bound when inverse() has raised. *)
Theorem init_not_invertible arg1 arg2 N pass_decryption_key :
  1 < N ->
  is_square (nrows arg1) (rows arg1) ->
  gcdz (det (nrows arg1) (rows arg1)) N != 1%N ->
  (arg2 = Some N /\ base_ring arg1 = ZZ)
  \/ (arg2 = None /\ base_ring arg1 = IntegerModRing N) ->
  HillCipher.__init__ arg1 arg2 pass_decryption_key = inl UnboundLocalError.
Proof.
move=> N_gt1 sq_arg1 not_unit.
have N_gt0 : 0 < N by apply: lt_trans N_gt1.
have m_gt0 : (0 < order_of (IntegerModRing N))%N by rewrite /= absz_gt0 (gt_eqF N_gt0).
have absN : Posz (order_of (IntegerModRing N)) = N by rewrite /= gtz0_abs.
case=> -[-> ring_arg1]; rewrite initE /=.
  rewrite /base_extend ring_arg1 /= dvdn0 /=.
  by rewrite (@inverse_reduce_not_unit (IntegerModRing N)) // absN.
rewrite ring_arg1 /= (gtz0_abs N_gt0) (gt_eqF N_gt0) /=.
case: arg1 ring_arg1 sq_arg1 not_unit => R A /= -> sqA not_unit.
by rewrite inverse_not_unit // absN.
Qed.

(* The all-zero matrix of any size n >= 1, over any modulus N >= 2. *)
Lemma det_zero_matrix (n : nat) : det n.+1 (zero_matrix n.+1) = 0.
Proof.
rewrite detS sum_iota big1 // => j _.
by rewrite /zero_matrix nth_nseq ltn0Sn (@nth_nseq int); case: ifP => _; rewrite mul0r.
Qed.

Lemma init_zero_matrix (n : nat) (N : int) pass_decryption_key :
  1 < N ->
  HillCipher.__init__ (Matrix ZZ (zero_matrix n.+1)) (Some N)
    pass_decryption_key
  = inl UnboundLocalError.
Proof.
move=> N_gt1; have N_gt0 : 0 < N by apply: lt_trans N_gt1.
have size_zero : size (zero_matrix n.+1) = n.+1 by rewrite size_nseq.
have nrows_zero : nrows (Matrix ZZ (zero_matrix n.+1)) = n.+1 by [].
have rows_zero : rows (Matrix ZZ (zero_matrix n.+1)) = zero_matrix n.+1 by [].
apply: (@init_not_invertible _ _ N) => //; rewrite ?nrows_zero ?rows_zero.
- by rewrite /is_square size_zero eqxx /zero_matrix all_nseq size_nseq eqxx orbT.
- by rewrite det_zero_matrix gcd0z gtz0_abs // (gt_eqF N_gt1).
- by left.
Qed.

Lemma init_not_invertible_witness :
  HillCipher.__init__ (Matrix ZZ [:: [:: 0; 0]; [:: 0; 0]]) (Some 3%:Z) false
  = inl UnboundLocalError.
Proof.
apply: (@init_not_invertible (Matrix ZZ [:: [:: 0; 0]; [:: 0; 0]]) _ 3 false).
- by vm_compute.
- by vm_compute.
- by vm_compute.
- by left.
Defined.

(** C8: constructing an engine from a matrix alone fails with the
    TypeError "no modulus is specified" whenever the base ring of the
    matrix has characteristic 0; when the characteristic N is positive the
    modulus is N: the matrix is inverted over its own ring and the engine
    built from it stores N. *)
Theorem init_without_modulus arg1 pass_decryption_key :
  let N := characteristic (base_ring arg1) in
  (N = 0 ->
   HillCipher.__init__ arg1 None pass_decryption_key
   = inl (TypeError No_modulus_is_specified))
  /\ (0 < N ->
      HillCipher.__init__ arg1 None pass_decryption_key
      = match inverse arg1 with
        | inr mod_matrix_inv =>
            inr (if pass_decryption_key
                 then HillCipher.Make mod_matrix_inv arg1 N
                 else HillCipher.Make arg1 mod_matrix_inv N)
        | inl _ => inl UnboundLocalError
        end).
Proof.
by split=> [N0|N_gt0]; rewrite initE /= ?N0 ?eqxx ?(gt_eqF N_gt0).
Qed.

Lemma init_without_modulus_witness :
  HillCipher.__init__ A1234 None false = inl (TypeError No_modulus_is_specified)
  /\ HillCipher.__init__ A3 None false = inr H1234.
Proof.
split.
- by apply: (proj1 (@init_without_modulus A1234 false)).
- by rewrite (proj2 (@init_without_modulus A3 false)).
Defined.

(** X24: a matrix over Z/NZ (N > 0, entries in [0, N) as Sage keeps them)
    given alone is constructed from exactly as the same matrix given
    together with its characteristic N as the modulus: the two calls fail
    alike or return the same engine. *)
Lemma init_alone_as_with_characteristic arg1 pass_decryption_key :
  let N := characteristic (base_ring arg1) in
  0 < N -> reduce `|N| (rows arg1) = rows arg1 ->
  HillCipher.__init__ arg1 None pass_decryption_key
  = HillCipher.__init__ arg1 (Some N) pass_decryption_key.
Proof.
case: arg1 => -[order_] A /= order_gt0 canonical_A.
by rewrite !initE /= (gt_eqF order_gt0) /base_extend /= dvdnn /= canonical_A.
Qed.

Lemma init_alone_as_with_characteristic_witness :
  HillCipher.__init__ A3 None true
  = HillCipher.__init__ A3 (Some (characteristic (base_ring A3))) true.
Proof.
apply: (@init_alone_as_with_characteristic A3 true).
- by vm_compute.
- by vm_compute.
Defined.

(* ====================================================================== *)
(*  PermutationCipher                                                     *)
(* ====================================================================== *)

(* The example of the docstring. *)
Example PermutationCipher_HelloThere :
  PermutationCipher [:: 2; 1; 0] (str_of "HelloThere") padding_char_default
  = inr (str_of "leHTolrehXXe").
Proof. by vm_compute. Qed.

Lemma chunks_ind_seq (T : Type) (n : nat) (P : seq T -> Prop) :
  (0 < n)%N ->
  (forall r, (size r < n)%N -> P r) ->
  (forall w x, size w = n -> P x -> P (w ++ x)) ->
  forall x, P x.
Proof.
move=> n_gt0 Pshort Pcat x.
have [k] := ubnP (size x); elim: k x => // k IHk x; rewrite ltnS => size_x.
have [x_short|x_long] := ltnP (size x) n; first exact: Pshort.
rewrite -(cat_take_drop n x); apply: Pcat; first by rewrite size_takel.
apply: IHk; rewrite size_drop; apply: leq_trans size_x.
by rewrite ltn_subrL n_gt0 (leq_trans n_gt0 x_long).
Qed.

Section GenericBlocks.

Variables (T U : Type) (n : nat) (full short : seq T -> result (seq U)).
Hypothesis n_gt0 : (0 < n)%N.

Local Notation gword := (gword n full short).
Local Notation gblocks := (gblocks n full short).

Lemma gblocks_nil : gblocks [::] = inr [::].
Proof. by rewrite /gblocks /= indices0. Qed.

Lemma gword_first (w x : seq T) : size w = n -> gword (w ++ x) 0 = full w.
Proof.
move=> size_w; rewrite /gword /slice add0n subn0 drop0 -size_w take_size_cat //.
by rewrite eqxx.
Qed.

Lemma gword_next (w x : seq T) i :
  size w = n -> gword (w ++ x) (i + n) = gword x i.
Proof.
move=> size_w; rewrite /gword /slice drop_cat size_w ltnNge leq_addl /=.
by rewrite addnK !addKn.
Qed.

Lemma gblocks_cat (w x : seq T) :
  size w = n ->
  gblocks (w ++ x) = (a <- full w ;; ys <- gblocks x ;; ret (a ++ ys)).
Proof.
move=> size_w; rewrite /gblocks size_cat size_w indices_add //= gword_first //.
case: (full w) => //= a.
rewrite mapM_map (eq_mapM (g := gword x)); first by move=> i; apply: gword_next.
by case: (mapM _ _).
Qed.

Lemma gblocks_short (w : seq T) : (0 < size w < n)%N -> gblocks w = short w.
Proof.
case/andP=> w_gt0 w_ltn; rewrite /gblocks /indices.
have -> : ((size w + n.-1) %/ n = 1)%N.
  rewrite -(prednK w_gt0) addSnnS prednK // addnC divnDl ?dvdnn // divnn n_gt0.
  by rewrite divn_small // prednK // (ltnW w_ltn).
rewrite /= mul0n /gword /slice add0n subn0 drop0 take_oversize ?(ltnW w_ltn) //.
by rewrite (ltn_eqF w_ltn); case: (short w) => //= a; rewrite cats0.
Qed.

End GenericBlocks.

Lemma mapM_cat {A B : Type} (f : A -> result B) (xs ys : seq A) :
  mapM f (xs ++ ys) = (a <- mapM f xs ;; b <- mapM f ys ;; ret (a ++ b)).
Proof.
elim: xs => [|x xs IHxs] /=; first by case: (mapM f ys).
by case: (f x) => //= y; rewrite IHxs; case: (mapM f xs) => //= a; case: (mapM f ys).
Qed.

Lemma mapM_size {A B : Type} (f : A -> result B) (xs : seq A) (ys : seq B) :
  mapM f xs = inr ys -> size ys = size xs.
Proof.
elim: xs ys => [|x xs IHxs] ys /=; first by case=> <-.
case: (f x) => //= y; case: (mapM f xs) IHxs => //= ys' IHxs [<-] /=.
by rewrite (IHxs ys').
Qed.

Section PermutationFacts.

Variable key_list : seq int.
Let n := size key_list.
Hypothesis n_gt0 : (0 < n)%N.

Lemma PermutationCipherE plaintext padding_char :
  PermutationCipher key_list plaintext padding_char
  = gblocks n (permute key_list) (permute_short key_list padding_char) plaintext.
Proof.
rewrite /PermutationCipher -/n range_step_indices //= /gblocks.
rewrite (@eq_for _ _ _ _ (fun i acc =>
  w <- gword n (permute key_list) (permute_short key_list padding_char)
         plaintext i ;; ret (acc ++ w))); last by rewrite for_extend.
move=> i acc; rewrite /gword /permute_short /permute -/n.
have loop (PT_word : str) :
  for_ (range n) (fun i CT_word =>
     c <- str_getitem PT_word (nth 0 key_list i) ;; ret (CT_word ++ [:: c])) [::]
  = mapM (str_getitem PT_word) key_list.
  rewrite (for_range_nth 0 key_list
     (fun k CT_word => c <- str_getitem PT_word k ;; ret (CT_word ++ [:: c]))).
  by rewrite for_append; case: (mapM _ _).
case: ifP => _; last by rewrite /= loop; case: (mapM _ _).
by case: ifP => _ //=; rewrite loop; case: (mapM _ _).
Qed.

End PermutationFacts.

Lemma permute_ok (key_list : seq int) (w : str) :
  all (in_bounds (size w)) key_list ->
  permute key_list w
  = inr [seq nth "000"%char w (position (size w) k) | k <- key_list].
Proof.
move=> bounds; apply: mapM_ok => [k|]; first exact: str_getitem_ok.
by apply: sub_all bounds => k; rewrite str_getitem_bounds.
Qed.

Lemma permute_fail (key_list : seq int) (w : str) :
  ~~ all (in_bounds (size w)) key_list -> permute key_list w = inl IndexError.
Proof.
move=> bounds; apply: mapM_fail => [k e|].
  by rewrite /str_getitem; case: ifP => // _ [].
by apply: contraNN bounds; apply: sub_all => k; rewrite str_getitem_bounds.
Qed.

Lemma position_nat (L i : nat) : position L (Posz i) = i.
Proof. by []. Qed.

Lemma in_bounds_nat (L i : nat) : in_bounds L (Posz i) = (i < L)%N.
Proof. by rewrite /in_bounds ltz_nat (le_trans _ (le0z_nat i)) // oppr_le0. Qed.

Section Padded.

Variables (n : nat) (c : ascii).
Hypothesis n_gt0 : (0 < n)%N.

Lemma padded_nil : padded n c [::] = [::].
Proof. by rewrite /padded /= mod0n subn0 modnn. Qed.

Lemma padded_cat (w x : str) : size w = n -> padded n c (w ++ x) = w ++ padded n c x.
Proof. by move=> size_w; rewrite /padded size_cat size_w modnDl catA. Qed.

Lemma padded_short (r : str) :
  (0 < size r < n)%N -> padded n c r = r ++ nseq (n - size r) c.
Proof.
case/andP=> r_gt0 r_ltn; rewrite /padded modn_small // modn_small //.
by rewrite ltn_subrL r_gt0 n_gt0.
Qed.

Lemma padded_dvdn (x : str) : (n %| size x)%N -> padded n c x = x.
Proof. by rewrite /padded => /eqP->; rewrite subn0 modnn cats0. Qed.

Lemma size_padded (x : str) :
  [/\ (n %| size (padded n c x))%N, (size x <= size (padded n c x))%N
    & (size (padded n c x) < size x + n)%N].
Proof.
rewrite /padded size_cat size_nseq; split; rewrite ?leq_addr ?ltn_add2l ?ltn_mod //.
rewrite /dvdn modnDmr -modnDml subnKC ?modnn //.
by rewrite ltnW // ltn_mod.
Qed.

End Padded.

Section PermutationLoop.

Variable key_list : seq int.
Let n := size key_list.
Hypothesis n_gt0 : (0 < n)%N.

Local Notation G pad := (gblocks n (permute key_list) (permute_short key_list pad)).

(* Padding the plaintext beforehand is what the padding character does. *)
Lemma gblocks_padded (c : ascii) (padding_char : str) (x : str) :
  G [:: c] x = G padding_char (padded n c x).
Proof.
move: x; apply: (chunks_ind_seq n_gt0) => [r r_short|w x size_w IHx]; last first.
  rewrite padded_cat // !(@gblocks_cat _ _ n _ _ n_gt0 w) //.
  by case: (permute _ w) => //= a; rewrite IHx.
have [->|r_neq0] := eqVneq r [::]; first by rewrite padded_nil // !gblocks_nil.
have r_gt0 : (0 < size r)%N by rewrite lt0n size_eq0.
rewrite gblocks_short ?r_gt0 // padded_short ?r_gt0 // /permute_short /=.
have -> : flatten (nseq (n - size r) [:: c]) = nseq (n - size r) c.
  by elim: (n - size r)%N => //= k ->.
rewrite -[X in G _ X]cats0 gblocks_cat ?gblocks_nil //.
  by rewrite size_cat size_nseq subnKC // ltnW.
by case: (permute _ _) => //= a; rewrite cats0.
Qed.

(* On whole words a key within bounds never fails and keeps the length. *)
Lemma gblocks_permute_size (padding_char : str) (x : str) :
  all (in_bounds n) key_list -> (n %| size x)%N ->
  exists2 ct, G padding_char x = inr ct & size ct = size x.
Proof.
move=> bounds; move: x.
apply: (chunks_ind_seq n_gt0) => [r r_short|w x size_w IHx].
  rewrite /dvdn modn_small // size_eq0 => /eqP->.
  by exists [::]; rewrite // gblocks_nil.
rewrite size_cat size_w dvdn_addr ?dvdnn // => /IHx[ct G_x size_ct].
rewrite gblocks_cat // permute_ok ?size_w //= G_x /=.
by eexists; first by []; rewrite !size_cat size_map size_ct.
Qed.

End PermutationLoop.

(** X1: PermutationCipher with a key of n >= 1 entries, all within
    [-n, n), and a padding of one character succeeds on every plaintext,
    and its output has the next multiple of n as length: a multiple of n,
    at least the length of the plaintext and less than n more. *)
Theorem PermutationCipher_length (key_list : seq int) (plaintext : str)
    (c : ascii) :
  (0 < size key_list)%N ->
  all (in_bounds (size key_list)) key_list ->
  exists ct,
    [/\ PermutationCipher key_list plaintext [:: c] = inr ct,
        (size key_list %| size ct)%N,
        (size plaintext <= size ct)%N
      & (size ct < size plaintext + size key_list)%N].
Proof.
move=> n_gt0 bounds; rewrite PermutationCipherE // (gblocks_padded n_gt0 c [::]).
have [dvd_n le_size lt_size] := size_padded c n_gt0 plaintext.
have [ct -> size_ct] := gblocks_permute_size n_gt0 [::] bounds dvd_n.
by exists ct; rewrite size_ct.
Qed.

Lemma PermutationCipher_length_witness :
  exists ct,
    [/\ PermutationCipher [:: 2; 1; 0] (str_of "HelloThere") [:: "X"%char]
        = inr ct,
        (size [:: 2%:Z; 1%:Z; 0%:Z] %| size ct)%N,
        (size (str_of "HelloThere") <= size ct)%N
      & (size ct < size (str_of "HelloThere") + size [:: 2%:Z; 1%:Z; 0%:Z])%N].
Proof.
apply: (@PermutationCipher_length [:: 2; 1; 0] (str_of "HelloThere") "X"%char).
- by vm_compute.
- by vm_compute.
Defined.

(** X2: PermutationCipher with a key of n >= 1 entries within [-n, n), on
    a plaintext whose length is not a multiple of n and with a padding that
    is not one character long, fails with the RuntimeError that asks for
    padding and reports the under-length last word. *)
Theorem PermutationCipher_padding_needed (key_list : seq int)
    (plaintext padding_char : str) :
  (0 < size key_list)%N ->
  all (in_bounds (size key_list)) key_list ->
  ~~ (size key_list %| size plaintext)%N ->
  size padding_char != 1%N ->
  PermutationCipher key_list plaintext padding_char
  = inl (RuntimeError (Additional_padding_is_needed
           [seq Chr c | c <- drop (size plaintext %/ size key_list
                                   * size key_list) plaintext])).
Proof.
move=> n_gt0 bounds + bad_padding; rewrite PermutationCipherE //.
move: plaintext; apply: (chunks_ind_seq n_gt0) => [r r_short|w x size_w IHx].
  rewrite /dvdn modn_small // divn_small // mul0n drop0 size_eq0 -size_eq0 -lt0n.
  by move=> r_gt0; rewrite gblocks_short ?r_gt0 // /permute_short bad_padding.
rewrite size_cat size_w dvdn_addr ?dvdnn // => /IHx G_x.
rewrite gblocks_cat // permute_ok ?size_w //= G_x /= divnDl ?dvdnn // divnn n_gt0.
by rewrite mulnDl mul1n addnC -drop_drop -size_w drop_size_cat.
Qed.

Lemma PermutationCipher_padding_needed_witness :
  PermutationCipher [:: 2; 1; 0] (str_of "HelloThere") [::]
  = inl (RuntimeError (Additional_padding_is_needed
           [seq Chr c | c <- drop (size (str_of "HelloThere")
                                   %/ size [:: 2%:Z; 1%:Z; 0%:Z]
                                   * size [:: 2%:Z; 1%:Z; 0%:Z])
                                  (str_of "HelloThere")])).
Proof.
apply: (@PermutationCipher_padding_needed [:: 2; 1; 0] (str_of "HelloThere") [::]).
- by vm_compute.
- by vm_compute.
- by vm_compute.
- by vm_compute.
Defined.

(** X3: PermutationCipher with one padding character c is PermutationCipher
    on the plaintext extended by copies of c to the next multiple of the
    key length, whatever padding is given then; so when the length of the
    plaintext is a multiple of the key length already, the padding argument
    has no effect. *)
Theorem PermutationCipher_pads_then_permutes (key_list : seq int)
    (plaintext padding_char : str) (c : ascii) :
  (0 < size key_list)%N ->
  PermutationCipher key_list plaintext [:: c]
  = PermutationCipher key_list (padded (size key_list) c plaintext) padding_char
  /\ ((size key_list %| size plaintext)%N ->
      PermutationCipher key_list plaintext padding_char
      = PermutationCipher key_list plaintext [:: c]).
Proof.
move=> n_gt0; rewrite !PermutationCipherE //; split.
  exact: gblocks_padded.
by move=> dvd_n; rewrite (gblocks_padded n_gt0 c padding_char) padded_dvdn.
Qed.

Lemma PermutationCipher_pads_then_permutes_witness :
  PermutationCipher [:: 2; 1; 0] (str_of "HelloThere") [:: "X"%char]
  = PermutationCipher [:: 2; 1; 0]
      (padded (size [:: 2%:Z; 1%:Z; 0%:Z]) "X"%char (str_of "HelloThere")) [::]
  /\ ((size [:: 2%:Z; 1%:Z; 0%:Z] %| size (str_of "HelloThere"))%N ->
      PermutationCipher [:: 2; 1; 0] (str_of "HelloThere") [::]
      = PermutationCipher [:: 2; 1; 0] (str_of "HelloThere") [:: "X"%char]).
Proof.
apply: (@PermutationCipher_pads_then_permutes [:: 2; 1; 0]).
by vm_compute.
Defined.

(** X4: PermutationCipher with a key that has an entry outside [-n, n)
    fails with IndexError on every non-empty plaintext whose first word is
    permuted at all, that is when the plaintext has at least n characters
    or the padding is one character. *)
Theorem PermutationCipher_bad_key (key_list : seq int)
    (plaintext padding_char : str) :
  ~~ all (in_bounds (size key_list)) key_list ->
  (0 < size plaintext)%N ->
  (size key_list <= size plaintext)%N || (size padding_char == 1%N) ->
  PermutationCipher key_list plaintext padding_char = inl IndexError.
Proof.
move=> bad_key pt_gt0 first_word.
have n_gt0 : (0 < size key_list)%N by case: (key_list) bad_key.
rewrite PermutationCipherE //.
have [pt_short|pt_long] := ltnP (size plaintext) (size key_list); last first.
  rewrite -(cat_take_drop (size key_list) plaintext) gblocks_cat ?size_takel //.
  by rewrite permute_fail ?size_takel.
rewrite gblocks_short ?pt_gt0 // /permute_short.
move: first_word; rewrite leqNgt pt_short /=.
case: padding_char => [|c [|c' pad]] //= _.
by rewrite permute_fail // size_cat size_flatten /shape map_nseq sumn_nseq /=
           mul1n subnKC // ltnW.
Qed.

Lemma PermutationCipher_bad_key_witness :
  PermutationCipher [:: 2; 1; 3] (str_of "HelloThere") padding_char_default
  = inl IndexError.
Proof.
apply: (@PermutationCipher_bad_key [:: 2; 1; 3] (str_of "HelloThere")).
- by vm_compute.
- by vm_compute.
- by vm_compute.
Defined.

(** X5: PermutationCipher with the empty key fails with ValueError (the
    step of range is 0) on every plaintext, the empty one too; with a
    non-empty key the empty plaintext gives the empty text, whatever the key
    holds. *)
Theorem PermutationCipher_empty (key_list : seq int)
    (plaintext padding_char : str) :
  PermutationCipher [::] plaintext padding_char = inl ValueError
  /\ ((0 < size key_list)%N ->
      PermutationCipher key_list [::] padding_char = inr [::]).
Proof.
by split=> // n_gt0; rewrite PermutationCipherE // gblocks_nil.
Qed.

Lemma PermutationCipher_empty_witness :
  PermutationCipher [::] (str_of "HelloThere") padding_char_default
  = inl ValueError
  /\ PermutationCipher [:: 7; 7] [::] padding_char_default = inr [::].
Proof.
split.
- exact: (proj1 (@PermutationCipher_empty [::] (str_of "HelloThere") _)).
- by apply: (proj2 (@PermutationCipher_empty [:: 7; 7] [::] _)).
Defined.

Section PermutationKeys.

Variable key_list : seq int.
Let n := size key_list.
Hypothesis key_perm : is_permutation key_list.

Lemma key_mem (k : int) :
  (k \in key_list) = (k \in [seq Posz i | i <- iota 0 n]).
Proof. exact: perm_mem key_perm k. Qed.

Lemma key_nat (k : int) : k \in key_list -> exists2 i, (i < n)%N & k = Posz i.
Proof.
by rewrite key_mem => /mapP[i]; rewrite mem_iota add0n => /andP[_ i_lt] ->; exists i.
Qed.

Lemma nat_in_key (i : nat) : (i < n)%N -> Posz i \in key_list.
Proof. by move=> i_lt; rewrite key_mem map_f // mem_iota. Qed.

Lemma key_bounds : all (in_bounds n) key_list.
Proof. by apply/allP=> k /key_nat[i i_lt ->]; rewrite in_bounds_nat. Qed.

Lemma key_uniq : uniq key_list.
Proof.
rewrite (perm_uniq key_perm) map_inj_uniq ?iota_uniq //.
by move=> i j [].
Qed.

Lemma size_inverse_key : size (inverse_key key_list) = n.
Proof. by rewrite size_map size_iota. Qed.

Lemma inverse_key_bounds : all (in_bounds n) (inverse_key key_list).
Proof.
apply/allP=> k /mapP[i]; rewrite mem_iota add0n => /andP[_ i_lt] ->.
by rewrite in_bounds_nat index_mem nat_in_key.
Qed.

(* The inverse key lists 0 .. n-1 in some order as well. *)
Lemma inverse_key_perm : is_permutation (inverse_key key_list).
Proof.
have inj_index : {in iota 0 n &, injective (fun i => Posz (index (Posz i) key_list))}.
  move=> i j; rewrite !mem_iota !add0n /= => i_lt j_lt [eq_index].
  have := nth_index 0 (nat_in_key i_lt); rewrite eq_index nth_index ?nat_in_key //.
  by case.
have uniq_inv : uniq (inverse_key key_list).
  by rewrite /inverse_key -/n map_inj_in_uniq ?iota_uniq.
have sub_inv : {subset inverse_key key_list <= [seq Posz i | i <- iota 0 n]}.
  move=> k /mapP[i]; rewrite mem_iota add0n /= => i_lt ->.
  by rewrite map_f // mem_iota add0n /= index_mem nat_in_key.
have [_ eq_mem] : (size (inverse_key key_list)
                   = size [seq Posz i | i <- iota 0 n])
                  * (inverse_key key_list =i [seq Posz i | i <- iota 0 n]).
  by apply: uniq_min_size; rewrite // size_inverse_key size_map size_iota.
rewrite /is_permutation size_inverse_key; apply: uniq_perm => //.
by rewrite map_inj_uniq ?iota_uniq // => i j [].
Qed.

(* Permuting a word by the key and then by the inverse key gives it back. *)
Lemma permute_inverse_key (w : str) :
  size w = n ->
  exists pw, [/\ permute key_list w = inr pw, size pw = n
               & permute (inverse_key key_list) pw = inr w].
Proof.
move=> size_w; rewrite permute_ok ?size_w ?key_bounds //.
eexists; split; first by []; first by rewrite size_map.
rewrite permute_ok size_map ?inverse_key_bounds //.
congr inr; rewrite -[RHS](mkseq_nth "000"%char) size_w /mkseq /inverse_key -/n.
rewrite -map_comp; apply/eq_in_map => i; rewrite mem_iota add0n /= => i_lt.
rewrite position_nat (nth_map 0) ?index_mem ?nat_in_key //.
by rewrite nth_index ?nat_in_key.
Qed.

(* A word permuted by the key holds the characters of the word. *)
Lemma permute_perm_eq (w pw : str) :
  size w = n -> permute key_list w = inr pw -> perm_eq pw w.
Proof.
move=> size_w; rewrite permute_ok ?size_w ?key_bounds //.
case=> <-; rewrite -[X in perm_eq _ X](mkseq_nth "000"%char) size_w /mkseq.
rewrite [X in perm_eq X _](_ : _ =
  [seq nth "000"%char w `|k| | k <- key_list]).
  by apply/eq_in_map => k /key_nat[i _ ->].
have -> : [seq nth "000"%char w i | i <- iota 0 n]
        = [seq nth "000"%char w `|k| | k <- [seq Posz i | i <- iota 0 n]].
  by rewrite -map_comp.
exact: perm_map.
Qed.

End PermutationKeys.

Section PermutationRoundTrip.

Variable key_list : seq int.
Let n := size key_list.
Hypothesis n_gt0 : (0 < n)%N.
Hypothesis key_perm : is_permutation key_list.

Local Notation G key pad := (gblocks n (permute key) (permute_short key pad)).

Lemma gblocks_inverse_key (pad pad' : str) (x : str) :
  (n %| size x)%N ->
  exists ct, [/\ G key_list pad x = inr ct, perm_eq ct x
               & G (inverse_key key_list) pad' ct = inr x].
Proof.
move: x; apply: (chunks_ind_seq n_gt0) => [r r_short|w x size_w IHx].
  rewrite /dvdn modn_small // size_eq0 => /eqP->.
  by exists [::]; rewrite !gblocks_nil.
rewrite size_cat size_w dvdn_addr ?dvdnn // => /IHx[ct [G_x perm_ct G_ct]].
have [pw [perm_w size_pw inv_pw]] := permute_inverse_key key_perm size_w.
exists (pw ++ ct); split.
- by rewrite gblocks_cat // perm_w /= G_x.
- by rewrite perm_cat // (permute_perm_eq key_perm size_w).
- by rewrite gblocks_cat // inv_pw /= G_ct.
Qed.

End PermutationRoundTrip.

(** X6: for a key that lists 0 .. n-1 in some order (n >= 1),
    PermutationCipher with the key that undoes it decrypts: from the
    ciphertext of a plaintext padded with c it gives back the plaintext
    followed by the padding, which is the plaintext itself when its length
    is a multiple of n. *)
Theorem PermutationCipher_inverse_key (key_list : seq int)
    (plaintext padding_char : str) (c : ascii) :
  (0 < size key_list)%N ->
  is_permutation key_list ->
  exists ct,
    [/\ PermutationCipher key_list plaintext [:: c] = inr ct,
        PermutationCipher (inverse_key key_list) ct padding_char
        = inr (padded (size key_list) c plaintext)
      & (size key_list %| size plaintext)%N ->
        PermutationCipher (inverse_key key_list) ct padding_char
        = inr plaintext].
Proof.
move=> n_gt0 key_perm.
have inv_gt0 : (0 < size (inverse_key key_list))%N by rewrite size_inverse_key.
have [dvd_n _ _] := size_padded c n_gt0 plaintext.
have [ct [G_pt _ G_ct]] :=
  gblocks_inverse_key n_gt0 key_perm [::] padding_char dvd_n.
exists ct; rewrite !PermutationCipherE // (gblocks_padded n_gt0 c [::]).
rewrite size_inverse_key; split=> // dvd_pt.
by rewrite G_ct padded_dvdn.
Qed.

Lemma PermutationCipher_inverse_key_witness :
  exists ct,
    [/\ PermutationCipher [:: 2; 0; 1] (str_of "HelloThere") [:: "X"%char]
        = inr ct,
        PermutationCipher (inverse_key [:: 2; 0; 1]) ct [::]
        = inr (padded (size [:: 2%:Z; 0%:Z; 1%:Z]) "X"%char (str_of "HelloThere"))
      & (size [:: 2%:Z; 0%:Z; 1%:Z] %| size (str_of "HelloThere"))%N ->
        PermutationCipher (inverse_key [:: 2; 0; 1]) ct [::]
        = inr (str_of "HelloThere")].
Proof.
apply: (@PermutationCipher_inverse_key [:: 2; 0; 1]).
- by vm_compute.
- by vm_compute.
Defined.

(** X7: for a key that lists 0 .. n-1 in some order (n >= 1), the
    ciphertext of PermutationCipher holds exactly the characters of the
    padded plaintext, each as often: it is a rearrangement of it. *)
Theorem PermutationCipher_rearranges (key_list : seq int) (plaintext : str)
    (c : ascii) :
  (0 < size key_list)%N ->
  is_permutation key_list ->
  exists2 ct,
    PermutationCipher key_list plaintext [:: c] = inr ct
    & perm_eq ct (padded (size key_list) c plaintext).
Proof.
move=> n_gt0 key_perm.
have [dvd_n _ _] := size_padded c n_gt0 plaintext.
have [ct [G_pt perm_ct _]] := gblocks_inverse_key n_gt0 key_perm [::] [::] dvd_n.
by exists ct; rewrite // PermutationCipherE // (gblocks_padded n_gt0 c [::]).
Qed.

Lemma PermutationCipher_rearranges_witness :
  exists2 ct,
    PermutationCipher [:: 2; 0; 1] (str_of "HelloThere") [:: "X"%char] = inr ct
    & perm_eq ct (padded (size [:: 2%:Z; 0%:Z; 1%:Z]) "X"%char
                         (str_of "HelloThere")).
Proof.
apply: (@PermutationCipher_rearranges [:: 2; 0; 1]).
- by vm_compute.
- by vm_compute.
Defined.

Section PermutationCompose.

Variables key1 key2 : seq int.
Let n := size key1.
Hypothesis n_gt0 : (0 < n)%N.
Hypothesis size_key2 : size key2 = n.
Hypothesis bounds1 : all (in_bounds n) key1.
Hypothesis range2 : all (in_range (Posz n)) key2.

Lemma size_compose_keys : size (compose_keys key1 key2) = n.
Proof. by rewrite size_map. Qed.

Lemma in_range_position (k : int) :
  in_range (Posz n) k -> position n k = `|k|%N /\ (`|k| < n)%N.
Proof.
by case/andP; case: k.
Qed.

Lemma compose_keys_bounds : all (in_bounds n) (compose_keys key1 key2).
Proof.
apply/allP=> k /mapP[k2 /(allP range2)/in_range_position[_ k2_lt] ->].
by apply: (allP bounds1); rewrite mem_nth.
Qed.

Lemma bounds2 : all (in_bounds n) key2.
Proof.
apply: sub_all range2 => k /andP[k_ge0 k_lt]; rewrite /in_bounds k_lt andbT.
by rewrite (le_trans _ k_ge0) // oppr_le0.
Qed.

Lemma permute_compose (w : str) :
  size w = n ->
  exists pw, [/\ permute key1 w = inr pw, size pw = n
               & permute key2 pw = permute (compose_keys key1 key2) w].
Proof.
move=> size_w; rewrite permute_ok ?size_w //; eexists; split; first by [].
  by rewrite size_map.
rewrite !permute_ok ?size_map ?size_w ?compose_keys_bounds ?bounds2 //.
congr inr; rewrite /compose_keys -map_comp; apply/eq_in_map => k2 /(allP range2).
case/in_range_position=> -> k2_lt /=.
by rewrite (nth_map 0).
Qed.

Local Notation G key pad := (gblocks n (permute key) (permute_short key pad)).

Lemma gblocks_compose (pad pad' pad'' : str) (x : str) :
  (n %| size x)%N ->
  exists2 ct, G key1 pad x = inr ct
            & G key2 pad' ct = G (compose_keys key1 key2) pad'' x.
Proof.
move: x; apply: (chunks_ind_seq n_gt0) => [r r_short|w x size_w IHx].
  rewrite /dvdn modn_small // size_eq0 => /eqP->.
  by exists [::]; rewrite !gblocks_nil.
rewrite size_cat size_w dvdn_addr ?dvdnn // => /IHx[ct G_x G_ct].
have [pw [perm_w size_pw perm_pw]] := permute_compose size_w.
exists (pw ++ ct); first by rewrite gblocks_cat // perm_w /= G_x.
by rewrite !gblocks_cat // perm_pw G_ct.
Qed.

End PermutationCompose.

(** X8: two runs of PermutationCipher are one run with the composed key:
    for keys key1 (entries within [-n, n)) and key2 (entries within [0, n))
    of the same length n >= 1, permuting by key1 and then by key2 gives what
    the key [key1[key2[0]], ..., key1[key2[n-1]]] gives in one pass. *)
Theorem PermutationCipher_compose (key1 key2 : seq int)
    (plaintext padding_char : str) (c : ascii) :
  (0 < size key1)%N ->
  size key2 = size key1 ->
  all (in_bounds (size key1)) key1 ->
  all (in_range (Posz (size key1))) key2 ->
  exists2 ct,
    PermutationCipher key1 plaintext [:: c] = inr ct
    & PermutationCipher key2 ct padding_char
      = PermutationCipher (compose_keys key1 key2) plaintext [:: c].
Proof.
move=> n_gt0 size_key2 bounds1 range2.
have [dvd_n _ _] := size_padded c n_gt0 plaintext.
have [ct G_pt G_ct] :=
  gblocks_compose n_gt0 bounds1 range2 [::] padding_char [::] dvd_n.
have size_comp := size_compose_keys size_key2.
have comp_gt0 : (0 < size (compose_keys key1 key2))%N by rewrite size_comp.
exists ct; first by rewrite PermutationCipherE // (gblocks_padded n_gt0 c [::]).
rewrite !PermutationCipherE ?size_key2 ?size_comp // G_ct.
by have := gblocks_padded comp_gt0 c [::] plaintext; rewrite size_comp => ->.
Qed.

Lemma PermutationCipher_compose_witness :
  exists2 ct,
    PermutationCipher [:: 2; 0; 1] (str_of "HelloThere") [:: "X"%char] = inr ct
    & PermutationCipher [:: 1; 0; 2] ct [::]
      = PermutationCipher (compose_keys [:: 2; 0; 1] [:: 1; 0; 2])
          (str_of "HelloThere") [:: "X"%char].
Proof.
apply: (@PermutationCipher_compose [:: 2; 0; 1] [:: 1; 0; 2]).
- by vm_compute.
- by vm_compute.
- by vm_compute.
- by vm_compute.
Defined.

(* ====================================================================== *)
(*  CodeForAlphabet: more on encode and decode                            *)
(* ====================================================================== *)

(** X9: for a code of word length 1, encode returns the position of the
    first occurrence of each character when every character of the text is
    in the alphabet, and fails with ValueError as soon as one is not. *)
Theorem encode_unknown_symbol (self : CodeForAlphabet.t) (text_str : str) :
  CodeForAlphabet.__codeword_length self = 1 ->
  let alphabet := CodeForAlphabet.__alphabet_string self in
  (all [in alphabet] text_str ->
   CodeForAlphabet.encode self text_str
   = inr [seq Posz (index c alphabet) | c <- text_str])
  /\ (~~ all [in alphabet] text_str ->
      CodeForAlphabet.encode self text_str = inl ValueError).
Proof.
move=> length_1 alphabet; rewrite encode_mapM //; split=> text_in.
  apply: mapM_ok => [c|]; first by rewrite /str_index inE; case: ifP.
  by apply: sub_all text_in => c; rewrite /str_index => ->.
apply: mapM_fail => [c e|]; first by rewrite /str_index; case: ifP => // _ [].
by apply: contraNN text_in; apply: sub_all => c; rewrite /str_index; case: ifP.
Qed.

Lemma encode_unknown_symbol_witness :
  CodeForAlphabet.encode (CodeForAlphabet.Make 1 ABCDE) (str_of "DECADE")
    = inr [seq Posz (index c ABCDE) | c <- str_of "DECADE"]
  /\ CodeForAlphabet.encode (CodeForAlphabet.Make 1 ABCDE) (str_of "Decade")
    = inl ValueError.
Proof.
split.
- apply: (proj1 (@encode_unknown_symbol (CodeForAlphabet.Make 1 ABCDE)
                   (str_of "DECADE") (erefl _))).
  by vm_compute.
- apply: (proj2 (@encode_unknown_symbol (CodeForAlphabet.Make 1 ABCDE)
                   (str_of "Decade") (erefl _))).
  by vm_compute.
Defined.

Lemma decode_within_bounds (self : CodeForAlphabet.t) (num_list : seq int) :
  CodeForAlphabet.__codeword_length self = 1 ->
  all (in_bounds (size (CodeForAlphabet.__alphabet_string self))) num_list ->
  CodeForAlphabet.decode self num_list
  = inr [seq nth "000"%char (CodeForAlphabet.__alphabet_string self)
               (position (size (CodeForAlphabet.__alphabet_string self)) k)
        | k <- num_list].
Proof.
move=> length_1 bounds; rewrite decode_mapM //.
apply: mapM_ok => [k|]; first exact: str_getitem_ok.
by apply: sub_all bounds => k; rewrite str_getitem_bounds.
Qed.

(** X10: for a code of word length 1 whose alphabet has no repeated
    character, encode undoes decode: on a list of integers within [-L, L)
    decode succeeds and encoding its text gives back each integer k as the
    position it named, k itself when k >= 0 and L + k otherwise; so a list
    within [0, L) comes back unchanged. *)
Theorem encode_decode (self : CodeForAlphabet.t) (num_list : seq int) :
  CodeForAlphabet.__codeword_length self = 1 ->
  let alphabet := CodeForAlphabet.__alphabet_string self in
  let L := size alphabet in
  uniq alphabet ->
  all (in_bounds L) num_list ->
  exists text_str,
    [/\ CodeForAlphabet.decode self num_list = inr text_str,
        CodeForAlphabet.encode self text_str
        = inr [seq Posz (position L k) | k <- num_list]
      & all (in_range (Posz L)) num_list ->
        CodeForAlphabet.encode self text_str = inr num_list].
Proof.
move=> length_1 alphabet L uniq_alphabet bounds.
have position_lt k : in_bounds L k -> (position L k < L)%N.
  rewrite -str_getitem_bounds /str_getitem /position -/L.
  by case: ifP => // /andP[k_ge0]; rewrite -{1}(gez0_abs k_ge0) ltz_nat.
exists [seq nth "000"%char alphabet (position L k) | k <- num_list].
have encode_text :
  CodeForAlphabet.encode self
    [seq nth "000"%char alphabet (position L k) | k <- num_list]
  = inr [seq Posz (position L k) | k <- num_list].
  rewrite encode_mapM // -/alphabet.
  rewrite (@mapM_ok _ _ _ (fun c => Posz (index c alphabet))).
  - by move=> c; rewrite /str_index inE; case: ifP.
  - rewrite all_map; apply: sub_all bounds => k k_bounds /=.
    by rewrite /str_index mem_nth // position_lt.
  congr inr; rewrite -map_comp; apply/eq_in_map => k /(allP bounds) k_bounds /=.
  by rewrite index_uniq // position_lt.
split=> //; first exact: decode_within_bounds.
move=> range; rewrite encode_text; congr inr; rewrite -[RHS]map_id.
by apply/eq_in_map => k /(allP range)/andP[]; case: k.
Qed.

Lemma encode_decode_witness :
  exists text_str,
    [/\ CodeForAlphabet.decode (CodeForAlphabet.Make 1 ABCDE) [:: 4; 0; -1; 2]
        = inr text_str,
        CodeForAlphabet.encode (CodeForAlphabet.Make 1 ABCDE) text_str
        = inr [seq Posz (position (size ABCDE) k) | k <- [:: 4; 0; -1; 2]]
      & all (in_range (Posz (size ABCDE))) [:: 4; 0; -1; 2] ->
        CodeForAlphabet.encode (CodeForAlphabet.Make 1 ABCDE) text_str
        = inr [:: 4; 0; -1; 2]].
Proof.
apply: (@encode_decode (CodeForAlphabet.Make 1 ABCDE) [:: 4; 0; -1; 2]).
- by [].
- by vm_compute.
- by vm_compute.
Defined.

Lemma mapM_all {A B : Type} (f : A -> result B) (P : pred B) (xs : seq A)
    (ys : seq B) :
  (forall x y, f x = inr y -> P y) -> mapM f xs = inr ys -> all P ys.
Proof.
move=> fP; elim: xs ys => [|x xs IHxs] ys /=; first by case=> <-.
case fx: (f x) => [//|y] /=; case: (mapM f xs) IHxs => //= ys' IHxs [<-] /=.
by rewrite (fP _ _ fx) IHxs.
Qed.

(** X11: for a code of word length 1 over an alphabet of length L, what
    encode returns is as long as the text and holds integers of [0, L)
    only, and what decode returns is as long as the list and holds
    characters of the alphabet only. *)
Theorem code_lengths_and_ranges (self : CodeForAlphabet.t) :
  CodeForAlphabet.__codeword_length self = 1 ->
  let alphabet := CodeForAlphabet.__alphabet_string self in
  (forall text_str num_list,
     CodeForAlphabet.encode self text_str = inr num_list ->
     size num_list = size text_str
     /\ all (in_range (Posz (size alphabet))) num_list)
  /\ (forall num_list text_str,
        CodeForAlphabet.decode self num_list = inr text_str ->
        size text_str = size num_list /\ all [in alphabet] text_str).
Proof.
move=> length_1 alphabet; split=> [text_str num_list|num_list text_str].
  rewrite encode_mapM // => enc; split; first exact: mapM_size enc.
  apply: mapM_all enc => c k; rewrite /str_index -/alphabet.
  by case: ifP => // c_in [<-]; rewrite /in_range /= ltz_nat index_mem.
rewrite decode_mapM // => dec; split; first exact: mapM_size dec.
apply: mapM_all dec => k c; rewrite /str_getitem -/alphabet.
case: ifP => // /andP[k_ge0 k_lt] [<-]; apply: mem_nth.
by rewrite -ltz_nat gez0_abs.
Qed.

Lemma code_lengths_and_ranges_witness :
  (forall text_str num_list,
     CodeForAlphabet.encode (CodeForAlphabet.Make 1 ABCDE) text_str
     = inr num_list ->
     size num_list = size text_str
     /\ all (in_range (Posz (size ABCDE))) num_list)
  /\ (forall num_list text_str,
        CodeForAlphabet.decode (CodeForAlphabet.Make 1 ABCDE) num_list
        = inr text_str ->
        size text_str = size num_list /\ all [in ABCDE] text_str).
Proof. by apply: (@code_lengths_and_ranges (CodeForAlphabet.Make 1 ABCDE)). Defined.

(** X12: encode and decode work entry by entry: for every code, encoding
    the text s ++ t is encoding s, then encoding t, and joining the two
    lists (the first failure is the failure of the whole), and likewise for
    decode. *)
Theorem code_concatenation (self : CodeForAlphabet.t) :
  (forall s t,
     CodeForAlphabet.encode self (s ++ t)
     = (a <- CodeForAlphabet.encode self s ;;
        b <- CodeForAlphabet.encode self t ;; ret (a ++ b)))
  /\ (forall s t,
        CodeForAlphabet.decode self (s ++ t)
        = (a <- CodeForAlphabet.decode self s ;;
           b <- CodeForAlphabet.decode self t ;; ret (a ++ b))).
Proof.
have [/eqP length_1|length_neq1] := boolP (CodeForAlphabet.__codeword_length self == 1).
  by split=> s t; rewrite ?encode_mapM ?decode_mapM // mapM_cat.
by split=> s t; rewrite /CodeForAlphabet.encode /CodeForAlphabet.decode length_neq1.
Qed.

(* ====================================================================== *)
(*  HillCipher: more on construction                                      *)
(* ====================================================================== *)

Lemma inverse_unit (R : ring) (A : seq (seq int)) :
  (0 < order_of R)%N ->
  is_square (size A) A ->
  gcdz (det (size A) A) (Posz (order_of R)) = 1%N ->
  exists2 M', inverse (Matrix R A) = inr M' & base_ring M' = R.
Proof.
move=> m_gt0 sqA unit_d; rewrite /inverse /nrows /= sqA /= eqn0Ngt m_gt0 /=.
by rewrite unit_d eqxx /=; eexists.
Qed.

(** X13: for every square matrix over ZZ whose determinant is a unit
    modulo N >= 2 (gcd(det, N) = 1) the construction with the modulus N
    succeeds, with either value of pass_decryption_key: the engine stores
    N, its block size is the number of rows of the matrix, and the matrix
    reduced modulo N is its encryption key (its decryption key when
    pass_decryption_key is set). *)
Theorem init_invertible arg1 N pass_decryption_key :
  1 < N ->
  base_ring arg1 = ZZ ->
  is_square (nrows arg1) (rows arg1) ->
  gcdz (det (nrows arg1) (rows arg1)) N = 1%N ->
  exists self,
    [/\ HillCipher.__init__ arg1 (Some N) pass_decryption_key = inr self,
        HillCipher.modulus self = N,
        HillCipher.block_size self = nrows arg1
      & (if pass_decryption_key then HillCipher.decryption_key self
         else HillCipher.encryption_key self)
        = Matrix (IntegerModRing N) (reduce `|N| (rows arg1))].
Proof.
move=> N_gt1 ring_arg1 sq_arg1 unit_d.
have N_gt0 : 0 < N by apply: lt_trans N_gt1.
have m_gt0 : (0 < order_of (IntegerModRing N))%N by rewrite /= absz_gt0 (gt_eqF N_gt0).
have absN : Posz (order_of (IntegerModRing N)) = N by rewrite /= gtz0_abs.
have [M' inv_M ring_M'] :
  exists2 M', inverse (Matrix (IntegerModRing N) (reduce `|N| (rows arg1))) = inr M'
            & base_ring M' = IntegerModRing N.
  apply: inverse_unit => //; first by rewrite size_map is_square_reduce.
  by rewrite size_map -gcdz_modl det_reduce gcdz_modl absN.
have [[_ _ _ sqM'] _] := inverse_mx inv_M.
have size_M' : nrows M' = nrows arg1.
  by case/is_squareP: sqM'; rewrite /nrows /= size_map.
rewrite initE /= /base_extend ring_arg1 /= dvdn0 /= inv_M /=.
by case: pass_decryption_key; eexists; split=> //=;
   rewrite /HillCipher.block_size /= ?size_M' // /nrows size_map.
Qed.

Lemma init_invertible_witness :
  exists self,
    [/\ HillCipher.__init__ A1234 (Some 3%:Z) true = inr self,
        HillCipher.modulus self = 3,
        HillCipher.block_size self = nrows A1234
      & HillCipher.decryption_key self
        = Matrix (IntegerModRing 3) (reduce `|3%:Z| (rows A1234))].
Proof.
apply: (@init_invertible A1234 3 true).
- by vm_compute.
- by vm_compute.
- by vm_compute.
- by vm_compute.
Defined.

(* ====================================================================== *)
(*  HillCipher: more on encrypt and decrypt                               *)
(* ====================================================================== *)

Lemma blocks_left_inverse (n m : nat) (A B : seq (seq int)) (x : seq int) :
  (0 < n)%N -> is_square n A -> is_square n B ->
  eqmx_mod m (mx n B *m mx n A) 1%:M ->
  (n %| size x)%N ->
  exists2 y, blocks n m A [::] x = inr y
           & blocks n m B [::] y = inr [seq (c %% Posz m)%Z | c <- x].
Proof.
move=> n_gt0 sqA sqB BA1; move: x.
apply: (chunks_ind n_gt0) => [r r_short|w x size_w IHx].
  rewrite /dvdn modn_small // size_eq0 => /eqP->.
  by exists [::]; rewrite blocks_nil.
rewrite size_cat size_w dvdn_addr ?dvdnn // => /IHx[y A_x B_y].
exists (mulmv m A w ++ y); first by rewrite blocks_cat // A_x.
have [size_A _] := is_squareP sqA.
rewrite blocks_cat ?size_mulmv // B_y /= map_cat.
by rewrite (mulmv_left_inverse sqA sqB BA1).
Qed.

Lemma in_range_map_modz (N : int) (x : seq int) :
  all (in_range N) x -> [seq (c %% Posz `|N|)%Z | c <- x] = x.
Proof.
move=> x_range; rewrite -[RHS]map_id; apply/eq_in_map => c c_in_x.
by rewrite in_range_modz // (allP x_range).
Qed.

(** X14: the round trip in the other direction: for every successfully
    constructed engine of block size n >= 1 and every integer sequence x
    whose length is a multiple of n, decrypt(x) succeeds and
    encrypt(decrypt(x)) is x with every entry reduced modulo N, which is x
    when every entry lies in [0, N). *)
Theorem encrypt_decrypt arg1 arg2 flag self x padding_char padding_char' :
  HillCipher.__init__ arg1 arg2 flag = inr self ->
  (0 < HillCipher.block_size self)%N ->
  (HillCipher.block_size self %| size x)%N ->
  exists y,
    [/\ HillCipher.decrypt self x padding_char = inr y,
        HillCipher.encrypt self y padding_char'
        = inr [seq (c %% HillCipher.modulus self)%Z | c <- x]
      & all (in_range (HillCipher.modulus self)) x ->
        HillCipher.encrypt self y padding_char' = inr x].
Proof.
move=> /init_well_formed wf n_gt0 n_dvd.
have [y dec_x enc_y] :=
  blocks_left_inverse n_gt0 (is_square_dec_rows wf) (is_square_enc_rows wf)
                      (enc_dec_rows wf) n_dvd.
exists y; rewrite encryptE // decryptE // enc_y.
have -> : [seq (c %% Posz (order self))%Z | c <- x]
          = [seq (c %% HillCipher.modulus self)%Z | c <- x].
  by apply: eq_map => c; rewrite /order modz_abs.
split=> // x_range; congr inr; rewrite -[RHS](in_range_map_modz x_range).
by apply: eq_map => c; rewrite modz_abs.
Qed.

Lemma encrypt_decrypt_witness :
  exists y,
    [/\ HillCipher.decrypt H1234 [:: 0; 0; 2; 1; 0; 1; 0; 2] [::] = inr y,
        HillCipher.encrypt H1234 y [::]
        = inr [seq (c %% HillCipher.modulus H1234)%Z
              | c <- [:: 0; 0; 2; 1; 0; 1; 0; 2]]
      & all (in_range (HillCipher.modulus H1234)) [:: 0; 0; 2; 1; 0; 1; 0; 2] ->
        HillCipher.encrypt H1234 y [::] = inr [:: 0; 0; 2; 1; 0; 1; 0; 2]].
Proof.
apply: (@encrypt_decrypt A1234 (Some 3%:Z) false H1234).
- by vm_compute.
- by vm_compute.
- by vm_compute.
Defined.

(** X15: encrypt is one-to-one on the sequences it is meant for: for every
    successfully constructed engine of block size n >= 1, two sequences of
    integers of [0, N) whose lengths are multiples of n and that encrypt to
    the same result are equal. *)
Theorem encrypt_injective arg1 arg2 flag self x x' padding_char padding_char' :
  HillCipher.__init__ arg1 arg2 flag = inr self ->
  (0 < HillCipher.block_size self)%N ->
  (HillCipher.block_size self %| size x)%N ->
  (HillCipher.block_size self %| size x')%N ->
  all (in_range (HillCipher.modulus self)) x ->
  all (in_range (HillCipher.modulus self)) x' ->
  HillCipher.encrypt self x padding_char
  = HillCipher.encrypt self x' padding_char' ->
  x = x'.
Proof.
move=> /init_well_formed wf n_gt0 n_dvd n_dvd' x_range x'_range.
have [y enc_x dec_y] := blocks_round_trip wf n_gt0 n_dvd.
have [y' enc_x' dec_y'] := blocks_round_trip wf n_gt0 n_dvd'.
rewrite !encryptE // enc_x enc_x' => -[eq_y].
move: dec_y; rewrite eq_y dec_y' => -[].
by rewrite /order !in_range_map_modz.
Qed.

Lemma encrypt_injective_witness :
  [:: 0; 1; 2; 2] = [:: 0%:Z; 1%:Z; 2%:Z; 2%:Z].
Proof.
apply: (@encrypt_injective A1234 (Some 3%:Z) false H1234 _ _ [::] [::]).
- by vm_compute.
- by vm_compute.
- by vm_compute.
- by vm_compute.
- by vm_compute.
- by vm_compute.
- by vm_compute.
Defined.

(** X16: pass_decryption_key exchanges the two roles: whenever the
    construction from a matrix succeeds without the flag it succeeds with
    it, the two engines have the same modulus and each other's keys, and
    encrypt of the one is decrypt of the other on every input. *)
Theorem pass_decryption_key_swaps arg1 arg2 self :
  HillCipher.__init__ arg1 arg2 false = inr self ->
  exists self',
    [/\ HillCipher.__init__ arg1 arg2 true = inr self',
        HillCipher.modulus self' = HillCipher.modulus self,
        HillCipher.encryption_key self' = HillCipher.decryption_key self,
        HillCipher.decryption_key self' = HillCipher.encryption_key self
      & forall x padding_char,
          HillCipher.encrypt self' x padding_char
          = HillCipher.decrypt self x padding_char
          /\ HillCipher.decrypt self' x padding_char
             = HillCipher.encrypt self x padding_char].
Proof.
rewrite !initE; case init_M: (init_matrix _ _) => [//|[N M]] /=.
case inv_M: (inverse M) => [//|M'] /= [<-].
have [[_ _ _ sqM'] _] := inverse_mx inv_M.
have size_M' : nrows M' = nrows M by case/is_squareP: sqM'.
exists (HillCipher.Make M' M N); split=> // x padding_char.
by rewrite /HillCipher.encrypt /HillCipher.decrypt /HillCipher.__apply_Hill_matrix__
           /HillCipher.block_size /= size_M'.
Qed.

Lemma pass_decryption_key_swaps_witness :
  exists self',
    [/\ HillCipher.__init__ A1234 (Some 3%:Z) true = inr self',
        HillCipher.modulus self' = HillCipher.modulus H1234,
        HillCipher.encryption_key self' = HillCipher.decryption_key H1234,
        HillCipher.decryption_key self' = HillCipher.encryption_key H1234
      & forall x padding_char,
          HillCipher.encrypt self' x padding_char
          = HillCipher.decrypt H1234 x padding_char
          /\ HillCipher.decrypt self' x padding_char
             = HillCipher.encrypt H1234 x padding_char].
Proof.
apply: (@pass_decryption_key_swaps A1234 (Some 3%:Z) H1234).
by vm_compute.
Defined.

Lemma blocks_dvdn_cat (n m : nat) (A : seq (seq int)) (pad : seq item)
    (x y : seq int) :
  (0 < n)%N -> (n %| size x)%N ->
  blocks n m A pad (x ++ y)
  = (a <- blocks n m A pad x ;; b <- blocks n m A pad y ;; ret (a ++ b)).
Proof.
move=> n_gt0; move: x; apply: (chunks_ind n_gt0) => [r r_short|w x size_w IHx].
  rewrite /dvdn modn_small // size_eq0 => /eqP->.
  by rewrite blocks_nil //=; case: (blocks _ _ _ _ _).
rewrite size_cat size_w dvdn_addr ?dvdnn // => /IHx IHy.
rewrite -catA !(@blocks_cat n m A pad n_gt0 w) // IHy.
case: (blocks n m A pad x) => //= a; case: (blocks n m A pad y) => //= b.
by rewrite catA.
Qed.

(** X17: encrypt and decrypt work block by block: for every successfully
    constructed engine of block size n >= 1 and every x whose length is a
    multiple of n, the result on x ++ y is the result on x followed by the
    result on y (and a failure on either is the failure of the whole). *)
Theorem encrypt_concatenation arg1 arg2 flag self x y padding_char :
  HillCipher.__init__ arg1 arg2 flag = inr self ->
  (0 < HillCipher.block_size self)%N ->
  (HillCipher.block_size self %| size x)%N ->
  HillCipher.encrypt self (x ++ y) padding_char
    = (a <- HillCipher.encrypt self x padding_char ;;
       b <- HillCipher.encrypt self y padding_char ;; ret (a ++ b))
  /\ HillCipher.decrypt self (x ++ y) padding_char
    = (a <- HillCipher.decrypt self x padding_char ;;
       b <- HillCipher.decrypt self y padding_char ;; ret (a ++ b)).
Proof.
move=> /init_well_formed wf n_gt0 n_dvd.
by rewrite !encryptE // !decryptE // !blocks_dvdn_cat.
Qed.

Lemma encrypt_concatenation_witness :
  HillCipher.encrypt H1234 ([:: 0; 1] ++ [:: 2; 2; 1]) [::]
    = (a <- HillCipher.encrypt H1234 [:: 0; 1] [::] ;;
       b <- HillCipher.encrypt H1234 [:: 2; 2; 1] [::] ;; ret (a ++ b))
  /\ HillCipher.decrypt H1234 ([:: 0; 1] ++ [:: 2; 2; 1]) [::]
    = (a <- HillCipher.decrypt H1234 [:: 0; 1] [::] ;;
       b <- HillCipher.decrypt H1234 [:: 2; 2; 1] [::] ;; ret (a ++ b)).
Proof.
apply: (@encrypt_concatenation A1234 (Some 3%:Z) false H1234).
- by vm_compute.
- by vm_compute.
- by vm_compute.
Defined.

Lemma dot_cons (a b : int) (r v : seq int) :
  dot (a :: r) (b :: v) = a * b + dot r v.
Proof. by []. Qed.

Lemma dot_map_modz (m : nat) (r v : seq int) :
  (dot r [seq (c %% Posz m)%Z | c <- v] = dot r v %[mod Posz m])%Z.
Proof.
elim: r v => [|a r IHr] [|b v] //=; rewrite !dot_cons.
by rewrite -modzDm modzMmr IHr modzDm.
Qed.

Lemma dot_addv (r v w : seq int) :
  size v = size w -> dot r (addv v w) = dot r v + dot r w.
Proof.
elim: r v w => [|a r IHr] [|b v] [|c w] //; try by rewrite /dot /= addr0.
case=> size_vw; rewrite /addv /= -/(addv v w) !dot_cons IHr // mulrDr.
by rewrite addrACA.
Qed.

Lemma mulmv_map_modz (m : nat) (A : seq (seq int)) (v : seq int) :
  mulmv m A [seq (c %% Posz m)%Z | c <- v] = mulmv m A v.
Proof. by apply: eq_map => r; rewrite dot_map_modz. Qed.

Lemma mulmv_addv (m : nat) (A : seq (seq int)) (v w : seq int) :
  size v = size w ->
  mulmv m A (addv v w) = addv_mod (Posz m) (mulmv m A v) (mulmv m A w).
Proof.
move=> size_vw; rewrite /addv_mod /mulmv zip_map -map_comp.
by apply: eq_map => r /=; rewrite dot_addv // modzDm.
Qed.

Section BlocksLinear.

Variables (n m : nat) (A : seq (seq int)).
Hypothesis n_gt0 : (0 < n)%N.
Hypothesis size_A : size A = n.

Local Notation blocks := (blocks n m A [::]).

(* Only the residues of the input count ... *)
Lemma blocks_map_modz (x : seq int) :
  (n %| size x)%N -> blocks [seq (c %% Posz m)%Z | c <- x] = blocks x.
Proof.
move: x; apply: (chunks_ind n_gt0) => [r r_short|w x size_w IHx].
  by rewrite /dvdn modn_small // size_eq0 => /eqP->.
rewrite size_cat size_w dvdn_addr ?dvdnn // => /IHx IHx'.
by rewrite map_cat !blocks_cat ?size_map // IHx' mulmv_map_modz.
Qed.

(* ... and the blocks of a sum are the sums of the blocks. *)
Lemma blocks_addv (x y : seq int) :
  (n %| size x)%N -> size y = size x ->
  exists cx cy,
    [/\ blocks x = inr cx, blocks y = inr cy, size cx = size cy
      & blocks (addv x y) = inr (addv_mod (Posz m) cx cy)].
Proof.
move: x y; apply: (chunks_ind n_gt0) => [r r_short|w x size_w IHx] y.
  rewrite /dvdn modn_small // size_eq0 => /eqP-> /eqP; rewrite size_eq0 => /eqP->.
  by exists [::], [::]; rewrite blocks_nil.
rewrite size_cat size_w dvdn_addr ?dvdnn // => n_dvd size_y.
have [y1 [y2 [Ey size_y1 size_y2]]] :
  exists y1 y2, [/\ y = y1 ++ y2, size y1 = n & size y2 = size x].
  exists (take n y), (drop n y); rewrite cat_take_drop size_drop size_y addKn.
  by rewrite size_takel // size_y leq_addr.
rewrite {y size_y}Ey.
have [cx [cy [blocks_x blocks_y size_c blocks_xy]]] := IHx _ n_dvd size_y2.
exists (mulmv m A w ++ cx), (mulmv m A y1 ++ cy).
have addv_cat : addv (w ++ x) (y1 ++ y2) = addv w y1 ++ addv x y2.
  by rewrite /addv zip_cat ?size_w // map_cat.
have size_addv : size (addv w y1) = n.
  by rewrite /addv size_map size_zip size_w size_y1 minnn.
rewrite addv_cat !blocks_cat ?blocks_x ?blocks_y ?blocks_xy //=.
split=> //; first by rewrite !size_cat !size_mulmv size_c.
by rewrite mulmv_addv ?size_w // /addv_mod zip_cat ?size_mulmv // map_cat.
Qed.

End BlocksLinear.

(** X18: encrypt reads its input modulo N: for every successfully
    constructed engine of block size n >= 1 and every x whose length is a
    multiple of n, encrypting x with every entry reduced modulo N is
    encrypting x, and likewise for decrypt. *)
Theorem encrypt_residues arg1 arg2 flag self x padding_char :
  HillCipher.__init__ arg1 arg2 flag = inr self ->
  (0 < HillCipher.block_size self)%N ->
  (HillCipher.block_size self %| size x)%N ->
  HillCipher.encrypt self [seq (c %% HillCipher.modulus self)%Z | c <- x]
    padding_char
    = HillCipher.encrypt self x padding_char
  /\ HillCipher.decrypt self [seq (c %% HillCipher.modulus self)%Z | c <- x]
       padding_char
    = HillCipher.decrypt self x padding_char.
Proof.
move=> /init_well_formed wf n_gt0 n_dvd.
have -> : [seq (c %% HillCipher.modulus self)%Z | c <- x]
          = [seq (c %% Posz (order self))%Z | c <- x].
  by apply: eq_map => c; rewrite /order modz_abs.
by rewrite !encryptE // !decryptE // !blocks_map_modz.
Qed.

Lemma encrypt_residues_witness :
  HillCipher.encrypt H1234
    [seq (c %% HillCipher.modulus H1234)%Z | c <- [:: 7; -2; 3; 11]] [::]
    = HillCipher.encrypt H1234 [:: 7; -2; 3; 11] [::]
  /\ HillCipher.decrypt H1234
       [seq (c %% HillCipher.modulus H1234)%Z | c <- [:: 7; -2; 3; 11]] [::]
    = HillCipher.decrypt H1234 [:: 7; -2; 3; 11] [::].
Proof.
apply: (@encrypt_residues A1234 (Some 3%:Z) false H1234).
- by vm_compute.
- by vm_compute.
- by vm_compute.
Defined.

(** X19: encrypt is additive modulo N: for every successfully constructed
    engine of block size n >= 1 and two sequences x, y of one length, a
    multiple of n, the ciphertext of the entrywise sum of x and y is the
    entrywise sum modulo N of the two ciphertexts. *)
Theorem encrypt_additive arg1 arg2 flag self x y padding_char :
  HillCipher.__init__ arg1 arg2 flag = inr self ->
  (0 < HillCipher.block_size self)%N ->
  (HillCipher.block_size self %| size x)%N ->
  size y = size x ->
  exists cx cy,
    [/\ HillCipher.encrypt self x padding_char = inr cx,
        HillCipher.encrypt self y padding_char = inr cy,
        size cx = size cy
      & HillCipher.encrypt self (addv x y) padding_char
        = inr (addv_mod (HillCipher.modulus self) cx cy)].
Proof.
move=> /init_well_formed wf n_gt0 n_dvd size_y.
have [cx [cy [enc_x enc_y size_c enc_xy]]] :=
  @blocks_addv _ (order self) (enc_rows self) n_gt0 _ _ n_dvd size_y.
exists cx, cy; rewrite !encryptE //; split=> //.
rewrite enc_xy; congr inr; apply: eq_map => p.
by rewrite /order modz_abs.
Qed.

Lemma encrypt_additive_witness :
  exists cx cy,
    [/\ HillCipher.encrypt H1234 [:: 0; 1; 2; 2] [::] = inr cx,
        HillCipher.encrypt H1234 [:: 1; 1; 0; 2] [::] = inr cy,
        size cx = size cy
      & HillCipher.encrypt H1234 (addv [:: 0; 1; 2; 2] [:: 1; 1; 0; 2]) [::]
        = inr (addv_mod (HillCipher.modulus H1234) cx cy)].
Proof.
apply: (@encrypt_additive A1234 (Some 3%:Z) false H1234).
- by vm_compute.
- by vm_compute.
- by vm_compute.
- by vm_compute.
Defined.

(* ====================================================================== *)
(*  __apply_Hill_matrix__ called with a padding                           *)
(* ====================================================================== *)

Section PadTo.

Variables (T : Type) (n : nat) (c : T).
Hypothesis n_gt0 : (0 < n)%N.

Lemma pad_to_nil : pad_to n c [::] = [::].
Proof. by rewrite /pad_to /= mod0n subn0 modnn. Qed.

Lemma pad_to_cat (w x : seq T) : size w = n -> pad_to n c (w ++ x) = w ++ pad_to n c x.
Proof. by move=> size_w; rewrite /pad_to size_cat size_w modnDl catA. Qed.

Lemma pad_to_short (r : seq T) :
  (0 < size r < n)%N -> pad_to n c r = r ++ nseq (n - size r) c.
Proof.
case/andP=> r_gt0 r_ltn; rewrite /pad_to modn_small // modn_small //.
by rewrite ltn_subrL r_gt0 n_gt0.
Qed.

Lemma size_pad_to (x : seq T) :
  [/\ (n %| size (pad_to n c x))%N, (size x <= size (pad_to n c x))%N
    & (size (pad_to n c x) < size x + n)%N].
Proof.
rewrite /pad_to size_cat size_nseq; split; rewrite ?leq_addr ?ltn_add2l ?ltn_mod //.
rewrite /dvdn modnDmr -modnDml subnKC ?modnn //.
by rewrite ltnW // ltn_mod.
Qed.

End PadTo.

Lemma vector_chr (w : seq int) (c : ascii) (rest : seq item) :
  vector ([seq Num k | k <- w] ++ Chr c :: rest)
  = inl (TypeError Raised_by_the_library).
Proof. by elim: w => [|k w IHw] //=; rewrite IHw. Qed.

Section BlocksPadding.

Variables (n m : nat) (A : seq (seq int)).
Hypothesis n_gt0 : (0 < n)%N.

Lemma indices_short (w : seq int) : (0 < size w < n)%N -> indices n (size w) = [:: 0%N].
Proof.
case/andP=> w_gt0 w_ltn; rewrite /indices.
have -> : ((size w + n.-1) %/ n = 1)%N.
  rewrite -(prednK w_gt0) addSnnS prednK // addnC divnDl ?dvdnn // divnn n_gt0.
  by rewrite divn_small // prednK // (ltnW w_ltn).
by rewrite /= mul0n.
Qed.

(* A last word that is too short, padded with one number ... *)
Lemma blocks_short_num (p : int) (w : seq int) :
  (0 < size w < n)%N ->
  blocks n m A [:: Num p] w = inr (mulmv m A (w ++ nseq (n - size w) p)).
Proof.
move=> w_short; rewrite /blocks indices_short //=.
case/andP: w_short => w_gt0 w_ltn.
rewrite /word /slice add0n subn0 drop0 take_oversize ?(ltnW w_ltn) //.
rewrite size_map (ltn_eqF w_ltn) /=.
have -> : [seq Num k | k <- w] ++ flatten (nseq (n - size w) [:: Num p])
          = [seq Num k | k <- w ++ nseq (n - size w) p].
  by rewrite map_cat; congr (_ ++ _); elim: (n - size w)%N => //= k ->.
by rewrite vector_nums /= cats0.
Qed.

(* ... and with one character. *)
Lemma blocks_short_chr (c : ascii) (w : seq int) :
  (0 < size w < n)%N ->
  blocks n m A [:: Chr c] w = inl (TypeError Raised_by_the_library).
Proof.
move=> w_short; rewrite /blocks indices_short //=.
case/andP: w_short => w_gt0 w_ltn.
rewrite /word /slice add0n subn0 drop0 take_oversize ?(ltnW w_ltn) //.
rewrite size_map (ltn_eqF w_ltn) /=.
have /prednK <- : (0 < n - size w)%N by rewrite subn_gt0.
by rewrite /= vector_chr.
Qed.

Lemma blocks_pad_to (p : int) (pad : seq item) (x : seq int) :
  blocks n m A [:: Num p] x = blocks n m A pad (pad_to n p x).
Proof.
move: x; apply: (chunks_ind n_gt0) => [r r_short|w x size_w IHx]; last first.
  by rewrite pad_to_cat // !(@blocks_cat n m A _ n_gt0 w) // IHx.
have [->|r_neq0] := eqVneq r [::]; first by rewrite pad_to_nil // !blocks_nil.
have r_gt0 : (0 < size r)%N by rewrite lt0n size_eq0.
rewrite blocks_short_num ?r_gt0 // pad_to_short ?r_gt0 //.
rewrite -[X in blocks _ _ _ _ X]cats0 blocks_cat ?blocks_nil //=.
  by rewrite size_cat size_nseq subnKC // ltnW.
by rewrite cats0.
Qed.

Lemma blocks_chr (c : ascii) (x : seq int) :
  ~~ (n %| size x)%N ->
  blocks n m A [:: Chr c] x = inl (TypeError Raised_by_the_library).
Proof.
move: x; apply: (chunks_ind n_gt0) => [r r_short|w x size_w IHx].
  rewrite /dvdn modn_small // size_eq0 -size_eq0 -lt0n => r_gt0.
  by rewrite blocks_short_chr // r_gt0.
rewrite size_cat size_w dvdn_addr ?dvdnn // => /IHx blocks_x.
by rewrite blocks_cat // blocks_x.
Qed.

End BlocksPadding.

(** X20: __apply_Hill_matrix__ itself pads: called with the encryption key
    of a successfully constructed engine (block size n >= 1) and a padding
    list of one number p, it succeeds on every input, on x being what
    encrypt gives on x extended by copies of p to the next multiple of n;
    the output length is that multiple. *)
Theorem apply_Hill_matrix_pads arg1 arg2 flag self x p padding_char :
  HillCipher.__init__ arg1 arg2 flag = inr self ->
  (0 < HillCipher.block_size self)%N ->
  let n := HillCipher.block_size self in
  exists y,
    [/\ HillCipher.__apply_Hill_matrix__ self
          (HillCipher.__encryption_matrix self) x [:: Num p] = inr y,
        HillCipher.encrypt self (pad_to n p x) padding_char = inr y,
        (n %| size y)%N,
        (size x <= size y)%N
      & (size y < size x + n)%N].
Proof.
move=> /init_well_formed wf n_gt0 n.
have [size_enc _] := is_squareP (is_square_enc_rows wf).
have [n_dvd le_size lt_size] := size_pad_to p n_gt0 x.
have [y blocks_y size_y] :=
  @blocks_size _ (order self) (enc_rows self) [::] n_gt0 size_enc _ n_dvd.
exists y; rewrite size_y encryptE //; split=> //.
rewrite apply_blocks ?(wf_enc_square wf) ?wf_enc_order //.
by rewrite (blocks_pad_to _ _ n_gt0 p [::]).
Qed.

Lemma apply_Hill_matrix_pads_witness :
  let n := HillCipher.block_size H1234 in
  exists y,
    [/\ HillCipher.__apply_Hill_matrix__ H1234
          (HillCipher.__encryption_matrix H1234) [:: 0; 1; 2] [:: Num 0] = inr y,
        HillCipher.encrypt H1234 (pad_to n 0 [:: 0; 1; 2]) [::] = inr y,
        (n %| size y)%N,
        (size [:: 0%:Z; 1%:Z; 2%:Z] <= size y)%N
      & (size y < size [:: 0%:Z; 1%:Z; 2%:Z] + n)%N].
Proof.
apply: (@apply_Hill_matrix_pads A1234 (Some 3%:Z) false H1234).
- by vm_compute.
- by vm_compute.
Defined.

(** X21: the padding cannot be a character: __apply_Hill_matrix__ called
    with a key of a successfully constructed engine (block size n >= 1), an
    input whose length is not a multiple of n and a padding string of one
    character fails with TypeError, raised when the word of numbers and
    characters is made a vector. *)
Theorem apply_Hill_matrix_string_padding arg1 arg2 flag self x c :
  HillCipher.__init__ arg1 arg2 flag = inr self ->
  (0 < HillCipher.block_size self)%N ->
  ~~ (HillCipher.block_size self %| size x)%N ->
  HillCipher.__apply_Hill_matrix__ self (HillCipher.__encryption_matrix self)
    x [:: Chr c]
  = inl (TypeError Raised_by_the_library)
  /\ HillCipher.__apply_Hill_matrix__ self (HillCipher.__decryption_matrix self)
       x [:: Chr c]
     = inl (TypeError Raised_by_the_library).
Proof.
move=> /init_well_formed wf n_gt0 n_ndvd.
rewrite !apply_blocks ?(wf_enc_square wf) ?(wf_dec_square wf)
        ?wf_enc_order ?wf_dec_order //.
by rewrite !blocks_chr.
Qed.

Lemma apply_Hill_matrix_string_padding_witness :
  HillCipher.__apply_Hill_matrix__ H1234 (HillCipher.__encryption_matrix H1234)
    [:: 0; 1; 2] [:: Chr "X"%char]
  = inl (TypeError Raised_by_the_library)
  /\ HillCipher.__apply_Hill_matrix__ H1234 (HillCipher.__decryption_matrix H1234)
       [:: 0; 1; 2] [:: Chr "X"%char]
     = inl (TypeError Raised_by_the_library).
Proof.
apply: (@apply_Hill_matrix_string_padding A1234 (Some 3%:Z) false H1234).
- by vm_compute.
- by vm_compute.
- by vm_compute.
Defined.

(* ====================================================================== *)
(*  HillCipher: the keys an engine stores                                 *)
(* ====================================================================== *)

Lemma reduce_canonical (m : nat) (A : seq (seq int)) :
  (0 < m)%N -> all (all (canonical m)) (reduce m A).
Proof.
move=> m_gt0; apply/allP=> r /mapP[r' _ ->].
by apply/allP=> c /mapP[c' _ ->]; apply: canonical_modz.
Qed.

Lemma inverse_canonical (M M' : matrix) :
  inverse M = inr M' ->
  all (all (canonical (order_of (base_ring M)))) (rows M').
Proof.
rewrite /inverse; case: ifP => // _; case: ifP => // /negbT; rewrite -lt0n => m_gt0.
case: ifP => // _ [<-] /=.
apply/allP=> r /mapP[r' _ ->].
by apply/allP=> c /mapP[c' _ ->]; apply: canonical_modz.
Qed.

Lemma canonical_reduce (m : nat) (A : seq (seq int)) :
  all (all (canonical m)) A -> reduce m A = A.
Proof.
move=> canonical_A; rewrite /reduce -[RHS]map_id; apply/eq_in_map => r r_in /=.
rewrite -[RHS]map_id; apply/eq_in_map => c c_in /=.
by apply: modz_small; apply: (allP (allP canonical_A r r_in)).
Qed.

(** X22: the keys of an engine constructed with a modulus N > 0 are kept
    in canonical form: every entry of encryption_key() and of
    decryption_key() lies in [0, N). *)
Theorem keys_canonical arg1 N flag self :
  HillCipher.__init__ arg1 (Some N) flag = inr self ->
  0 < N ->
  all (all (in_range N)) (rows (HillCipher.encryption_key self))
  /\ all (all (in_range N)) (rows (HillCipher.decryption_key self)).
Proof.
rewrite initE /= /base_extend; case: ifP => //= _.
case inv_M: (inverse _) => [//|M'] /= self_eq N_gt0.
have m_gt0 : (0 < `|N|)%N by rewrite absz_gt0 (gt_eqF N_gt0).
have canonical_M := reduce_canonical (rows arg1) m_gt0.
have /= canonical_M' := inverse_canonical inv_M.
have in_range_rows (A : seq (seq int)) :
  all (all (canonical `|N|)) A -> all (all (in_range N)) A.
  by apply: sub_all => r; apply: canonical_in_range.
by case: flag self_eq => -[<-] /=; split; apply: in_range_rows.
Qed.

Lemma keys_canonical_witness :
  all (all (in_range 3)) (rows (HillCipher.encryption_key H1234))
  /\ all (all (in_range 3)) (rows (HillCipher.decryption_key H1234)).
Proof.
apply: (@keys_canonical A1234 3 false H1234).
- by vm_compute.
- by vm_compute.
Defined.

Lemma eqmx_mod_sym (m p q : nat) (M1 M2 : 'M[int]_(p, q)) :
  eqmx_mod m M1 M2 -> eqmx_mod m M2 M1.
Proof. by move=> eq12 i j; rewrite eq12. Qed.

(* A right inverse modulo m of a matrix that has a left inverse is that
   left inverse. *)
Lemma inverse_unique_mod (m n : nat) (A B X : 'M[int]_n) :
  eqmx_mod m (B *m A) 1%:M -> eqmx_mod m (A *m X) 1%:M -> eqmx_mod m X B.
Proof.
move=> BA1 AX1.
have eq1 : eqmx_mod m X (B *m A *m X).
  by rewrite -[X in eqmx_mod m X _]mul1mx; apply: eqmx_mod_mul => //; apply: eqmx_mod_sym.
apply: eqmx_mod_trans eq1 _; rewrite -mulmxA -[X in eqmx_mod m _ X]mulmx1.
exact: eqmx_mod_mul.
Qed.

Lemma eqz_mod_prod (m : nat) (I : Type) (r : seq I) (F G : I -> int) :
  (forall i, (F i = G i %[mod Posz m])%Z) ->
  (\prod_(i <- r) F i = \prod_(i <- r) G i %[mod Posz m])%Z.
Proof.
move=> eqFG; elim/big_rec2: _ => // i x y _ eq_xy.
by rewrite -modzMm eqFG eq_xy modzMm.
Qed.

Lemma det_eqmx_mod (m n : nat) (M1 M2 : 'M[int]_n) :
  eqmx_mod m M1 M2 -> (\det M1 = \det M2 %[mod Posz m])%Z.
Proof.
move=> eq12; rewrite /determinant; apply: eqz_mod_sum => s.
by rewrite -modzMmr (eqz_mod_prod _ (fun i => eq12 i (perm.fun_of_perm s i))) modzMmr.
Qed.

Lemma unit_of_product (m : nat) (a b : int) :
  (a * b = 1 %[mod Posz m])%Z -> gcdz a (Posz m) = 1%N.
Proof.
move/eqP; rewrite eqz_mod_dvd => /dvdzP[k ab1].
apply/eqP; rewrite -/(coprimez a (Posz m)); apply/coprimezP.
by exists (b, - k) => /=; rewrite mulNr -ab1 mulrC opprB addrC subrK.
Qed.

Lemma canonical_eq_rows (m n : nat) (X Y : seq (seq int)) :
  is_square n X -> is_square n Y ->
  all (all (canonical m)) X -> all (all (canonical m)) Y ->
  eqmx_mod m (mx n X) (mx n Y) -> X = Y.
Proof.
move=> sqX sqY canonical_X canonical_Y eqXY; apply: (eq_rows sqX sqY) => i j.
have entry (Z : seq (seq int)) :
  is_square n Z -> all (all (canonical m)) Z ->
  (nth 0 (nth [::] Z i) j %% Posz m)%Z = nth 0 (nth [::] Z i) j.
  case/is_squareP=> size_Z row_Z canonical_Z; apply: modz_small.
  have row_in : nth [::] Z i \in Z by rewrite mem_nth // size_Z.
  by apply: (allP (allP canonical_Z _ row_in)); rewrite mem_nth // row_Z.
by rewrite -(entry X) // -(entry Y) //; have := eqXY i j; rewrite !mxE.
Qed.

(** X23: an engine is rebuilt from its decryption key: when the
    construction from a matrix over ZZ with a modulus N > 0 succeeds,
    constructing from decryption_key() of that engine with
    pass_decryption_key set, with the modulus N or without a modulus,
    returns the very same engine. *)
Theorem init_from_decryption_key arg1 N self :
  HillCipher.__init__ arg1 (Some N) false = inr self ->
  0 < N ->
  HillCipher.__init__ (HillCipher.decryption_key self) None true = inr self
  /\ HillCipher.__init__ (HillCipher.decryption_key self) (Some N) true
     = inr self.
Proof.
move=> init_self N_gt0; have wf := init_well_formed init_self.
move: init_self; rewrite initE /= /base_extend; case: ifP => //= _.
set M := Matrix _ _; case inv_M: (inverse M) => [//|M'] /= -[self_eq].
have m_gt0 : (0 < `|N|)%N by rewrite absz_gt0 (gt_eqF N_gt0).
have [[_ ring_M' sqM sqM'] [MM' M'M]] := inverse_mx inv_M.
have /= canonical_M' := inverse_canonical inv_M.
have canonical_M : all (all (canonical `|N|)) (rows M).
  exact: reduce_canonical.
have size_M' : size (rows M') = nrows M by case/is_squareP: sqM'.
have unit_M' : gcdz (det (size (rows M')) (rows M')) (Posz `|N|) = 1%N.
  apply: (@unit_of_product _ _ (det (nrows M) (rows M))).
  rewrite size_M' !det_mx -det_mulmx -[1](det1 _ (nrows M)).
  exact: det_eqmx_mod M'M.
have [X inv_M'] : exists X, inverse M' = inr X.
  case: (M') ring_M' sqM' unit_M' size_M' => R' A' /= -> sqA' unit_A' size_A'.
  rewrite -size_A' in sqA'.
  have [X inv_X _] := @inverse_unit (IntegerModRing N) A' m_gt0 sqA' unit_A'.
  by exists X.
have [[_ ring_X _ sqX] [M'X _]] := inverse_mx inv_M'.
have canonical_X := inverse_canonical inv_M'.
have nrows_M' : nrows M' = nrows M := size_M'.
rewrite ?nrows_M' ?ring_M' /= in sqX M'X canonical_X.
have rows_X : rows X = rows M.
  apply: (canonical_eq_rows sqX sqM canonical_X canonical_M).
  exact: inverse_unique_mod MM' M'X.
have X_eq : X = M.
  by case: (X) ring_X rows_X => RX AX /= -> ->; rewrite ring_M'.
have reduce_M' : Matrix (IntegerModRing N) (reduce `|N| (rows M')) = M'.
  by rewrite canonical_reduce //; case: (M') ring_M' => R' A' /= ->.
rewrite -self_eq !initE /= ring_M' /= (gtz0_abs N_gt0) (gt_eqF N_gt0) /=.
by rewrite /base_extend ring_M' /= dvdnn /= reduce_M' inv_M' /= X_eq.
Qed.

Lemma init_from_decryption_key_witness :
  HillCipher.__init__ (HillCipher.decryption_key H1234) None true = inr H1234
  /\ HillCipher.__init__ (HillCipher.decryption_key H1234) (Some 3%:Z) true
     = inr H1234.
Proof.
apply: (@init_from_decryption_key A1234 3 H1234).
- by vm_compute.
- by vm_compute.
Defined.

(* ====================================================================== *)
(*  letter_stats                                                          *)
(* ====================================================================== *)

Lemma foldl_comp_map {A B C : Type} (f : C -> B -> C) (g : A -> B) z s :
  foldl f z (map g s) = foldl (fun z x => f z (g x)) z s.
Proof. by elim: s z => //=. Qed.

Lemma clean_loop (text : str) :
  foldl (fun clean_text i =>
           if isalpha (nth "000"%char text i)
           then clean_text ++ [:: upper (nth "000"%char text i)]
           else clean_text)
        [::] (range (size text)) = clean text.
Proof.
rewrite -(foldl_comp_map
            (fun acc c => if isalpha c then acc ++ [:: upper c] else acc)
            (nth "000"%char text)).
rewrite /range -/(mkseq _ _) mkseq_nth /clean.
set f := fun acc c => _.
have fE acc : foldl f acc text = acc ++ [seq upper c | c <- text & isalpha c].
  elim: text acc => [|c text IHtext] acc /=; first by rewrite cats0.
  by rewrite IHtext /f; case: (isalpha c) => //=; rewrite -catA.
exact: fE.
Qed.

Lemma count_loop N S E (t : str) (d : dict) (total : nat) :
  foldl (fun (state : dict * nat) i =>
           let: (count_dictionary, total) := state in
           let tmp_key := slice t i (i + N) in
           if startswith tmp_key S && endswith tmp_key E
           then
             (match dict_get count_dictionary tmp_key with
              | Some count => dict_set count_dictionary tmp_key (count + 1)
              | None => dict_set count_dictionary tmp_key 1
              end, (total + 1)%N)
           else state)
        (d, total) (range (size t + 1 - N))
  = (foldl count_up d (matching N S E t),
     (total + size (matching N S E t))%N).
Proof.
rewrite /matching /fragments /range.
elim: (iota _ _) d total => [|i r IHr] d total /=; first by rewrite addn0.
case: ifP => _ /=; last by rewrite IHr.
by rewrite IHr /count_up addn1 addSnnS.
Qed.

Lemma dict_get_keys (d : dict) k :
  (dict_get d k == None) = (k \notin dict_keys d).
Proof.
rewrite /dict_get /dict_keys; elim: d => [|[k0 v] d IHd] //=.
by rewrite in_cons (eq_sym k); case: (k0 == k).
Qed.

Lemma dict_count_absent (d : dict) k : k \notin dict_keys d -> dict_count d k = 0%N.
Proof. by rewrite -dict_get_keys /dict_count => /eqP->. Qed.

Lemma filter_key_map (g : str * nat -> str * nat) (d : dict) k :
  (forall kv, (g kv).1 = kv.1) ->
  [seq kv <- map g d | kv.1 == k] = map g [seq kv <- d | kv.1 == k].
Proof.
by move=> key_g; rewrite filter_map; congr map; apply: eq_filter => kv /=; rewrite key_g.
Qed.

Lemma dict_keys_count_up (d : dict) k :
  dict_keys (count_up d k)
  = if k \in dict_keys d then dict_keys d else rcons (dict_keys d) k.
Proof.
have keys_set v : dict_keys (dict_set d k v)
                  = if k \in dict_keys d then dict_keys d else rcons (dict_keys d) k.
  rewrite /dict_set /dict_keys; case: ifP => _; last by rewrite map_rcons.
  by rewrite -map_comp; apply: eq_map => kv /=; case: eqP => [->|].
by rewrite /count_up; case: (dict_get d k) => [c|]; apply: keys_set.
Qed.

Lemma filter_key_head (d : dict) k kv l :
  [seq kv <- d | kv.1 == k] = kv :: l -> kv.1 = k.
Proof.
move=> def_l; have: kv \in [seq kv <- d | kv.1 == k] by rewrite def_l mem_head.
by rewrite mem_filter => /andP[/eqP].
Qed.

Lemma dict_count_count_up (d : dict) k k' :
  dict_count (count_up d k) k' = (dict_count d k' + (k' == k))%N.
Proof.
rewrite /count_up; case get_k: (dict_get d k) => [c|].
- have k_in : k \in dict_keys d by rewrite -[_ \in _]negbK -dict_get_keys get_k.
  rewrite /dict_set k_in /dict_count /dict_get filter_key_map.
    by move=> kv; case: eqP => [->|].
  move: get_k; rewrite /dict_get.
  case: (k' =P k) => [->|k'_neq].
    case def_l: [seq _ <- d | _] => [|kv l] //= [<-].
    by rewrite (filter_key_head def_l) !eqxx.
  rewrite addn0 => _; case def_l: [seq _ <- d | _] => [|kv l] //=.
  by case: eqP => // kE; case: k'_neq; rewrite -kE (filter_key_head def_l).
- have k_notin : k \notin dict_keys d by rewrite -dict_get_keys get_k.
  rewrite /dict_set (negbTE k_notin) /dict_count /dict_get filter_rcons /=.
  rewrite (eq_sym k); case: eqP => [->|_]; last by rewrite addn0.
  move: get_k; rewrite /dict_get.
  by case: [seq _ <- d | _].
Qed.

Lemma dict_keys_tally (d : dict) (fs : seq str) :
  uniq (dict_keys d) ->
  uniq (dict_keys (foldl count_up d fs))
  /\ dict_keys (foldl count_up d fs) =i dict_keys d ++ fs.
Proof.
elim: fs d => [|f fs IHfs] d uniq_d /=; first by split=> // k; rewrite cats0.
have uniq_d' : uniq (dict_keys (count_up d f)).
  by rewrite dict_keys_count_up; case: ifP => // f_notin; rewrite rcons_uniq f_notin.
have [uniq_r mem_r] := IHfs _ uniq_d'; split=> // k.
rewrite mem_r dict_keys_count_up !mem_cat in_cons.
case: ifP => [f_in|_]; last by rewrite mem_rcons in_cons orbA [(k == f) || _]orbC.
by case: eqP => [->|] //; rewrite f_in.
Qed.

Lemma dict_count_tally (d : dict) (fs : seq str) k :
  dict_count (foldl count_up d fs) k = (dict_count d k + count_mem k fs)%N.
Proof.
elim: fs d => [|f fs IHfs] d /=; first by rewrite addn0.
by rewrite IHfs dict_count_count_up addnA eq_sym.
Qed.

Lemma letter_statsE read_file keys_order input_text N S E show_at_most :
  let L1 := stat_rows keys_order
              (matching N (str_upper S) (str_upper E)
                 (clean (text_read read_file input_text))) in
  letter_stats read_file keys_order input_text N S E show_at_most
  = if NUL \in input_text then raise (TypeError Raised_by_the_library)
    else ret (take (shown show_at_most (size L1)) L1, L1).
Proof.
rewrite /letter_stats /NUL; case: ifP => //= _.
rewrite -/(text_read read_file input_text) clean_loop count_loop /=.
rewrite -/(tally _) -/by_count -/(stat_rows _ _); set L1 := stat_rows _ _.
congr (inr (_, _)); case: show_at_most => [k|] /=; last by rewrite /range map_nth_iota0.
case: ifP => _; first by rewrite take0.
by rewrite /range map_nth_iota0 // geq_minl.
Qed.

Lemma by_count_total : total by_count.
Proof. by move=> a b; rewrite /by_count leq_total. Qed.

Lemma by_count_trans : transitive by_count.
Proof. by move=> b a c ba cb; rewrite /by_count (leq_trans cb ba). Qed.

Lemma tally_keys (fs : seq str) :
  uniq (dict_keys (tally fs)) /\ dict_keys (tally fs) =i fs.
Proof. by have [] := @dict_keys_tally [::] fs isT. Qed.

Lemma tally_count (fs : seq str) k : dict_count (tally fs) k = count_mem k fs.
Proof. by rewrite /tally dict_count_tally. Qed.

Lemma rows_perm (keys_order : seq str -> seq str) (fs : seq str) :
  (forall ks, uniq ks -> perm_eq (keys_order ks) ks) ->
  perm_eq (stat_rows keys_order fs) [seq (k, count_mem k fs) | k <- undup fs].
Proof.
move=> perm_keys; have [uniq_d mem_d] := tally_keys fs.
rewrite /stat_rows perm_sort (eq_map (g := fun k => (k, count_mem k fs))).
  by move=> k; rewrite tally_count.
apply: perm_map; apply: perm_trans (perm_keys _ uniq_d) _.
by apply: uniq_perm => //; [exact: undup_uniq | move=> k; rewrite mem_d mem_undup].
Qed.

Lemma size_fragment N (t : str) f : f \in fragments N t -> size f = N.
Proof.
case/mapP=> i; rewrite mem_iota add0n => /andP[_ lt_i] ->.
rewrite /slice size_take size_drop addKn.
move: lt_i; rewrite ltn_subRL addn1 ltnS => le_Ni.
case: ltnP => // le_N; apply/eqP; rewrite eqn_leq le_N /=.
by rewrite leq_subRL 1?addnC // (leq_trans _ le_Ni) // leq_addl.
Qed.

Lemma sorted_same_count (s : seq (str * nat)) c :
  all (fun r => r.2 == c) s -> sorted by_count s.
Proof.
rewrite (sorted_pairwise by_count_trans).
elim: s => [|x s IHs] //= /andP[/eqP x_c all_s]; rewrite IHs // andbT.
by apply: sub_all all_s => r /eqP r_c; rewrite /by_count r_c x_c.
Qed.

Lemma upper_isalpha c : isalpha c -> is_upper (upper c).
Proof. by case: c => [[] [] [] [] [] [] [] []]; vm_compute. Qed.

Lemma is_upper_isalpha c : is_upper c -> isalpha c.
Proof. by case: c => [[] [] [] [] [] [] [] []]; vm_compute. Qed.

Lemma upper_is_upper c : is_upper c -> upper c = c.
Proof. by case: c => [[] [] [] [] [] [] [] []]; vm_compute. Qed.

Lemma upper_upper c : upper (upper c) = upper c.
Proof. by case: c => [[] [] [] [] [] [] [] []]; vm_compute. Qed.

Lemma clean_upper (t : str) : all is_upper (clean t).
Proof.
rewrite /clean all_map all_filter; apply/allP => c _ /=.
by apply/implyP; apply: upper_isalpha.
Qed.

Lemma clean_clean (t : str) : clean (clean t) = clean t.
Proof.
have clean_id (s : str) : all is_upper s -> clean s = s.
  elim: s => [|c s IHs] //= /andP[up_c up_s].
  rewrite /clean /= (is_upper_isalpha up_c) /= (upper_is_upper up_c).
  by congr cons; apply: IHs.
exact/clean_id/clean_upper.
Qed.

Lemma str_upper_upper (s : str) : str_upper (str_upper s) = str_upper s.
Proof. by rewrite /str_upper -map_comp; apply: eq_map => c /=; rewrite upper_upper. Qed.

Lemma fragment_upper N (t : str) f :
  all is_upper t -> f \in fragments N t -> all is_upper f.
Proof.
move=> /allP up_t /mapP[i _ ->]; apply/allP => c.
by rewrite /slice => /mem_take /mem_drop /up_t.
Qed.

Lemma sumn_counts (fs : seq str) :
  sumn [seq count_mem k fs | k <- undup fs] = size fs.
Proof.
have iterop1 n : iterop n addn 1%N 0%N = n.
  by case: n => // n; rewrite iteropS; elim: n => //= n ->.
rewrite sumnE big_map -sum1_size -[RHS]big_undup_iterop_count /=.
by apply: eq_bigr => k _; rewrite iterop1.
Qed.

Lemma size_fragments N (t : str) : size (fragments N t) = (size t + 1 - N)%N.
Proof. by rewrite /fragments size_map size_iota. Qed.

Lemma matching_all N (t : str) : matching N [::] [::] t = fragments N t.
Proof.
rewrite /matching; apply/all_filterP/allP => f _.
by rewrite /startswith /endswith prefix0s suffix0s.
Qed.

Lemma clean_no_NUL (t : str) : NUL \notin clean t.
Proof. by apply/negP => /(allP (clean_upper t)). Qed.

(** X25: on a text without a NUL character letter_stats returns, and the
    list it returns is in order of non-increasing count; the sort being
    stable, the rows of any one count c stand in the order in which the
    dictionary handed out their keys. *)
Theorem letter_stats_sorted read_file keys_order input_text N S E show_at_most :
  NUL \notin input_text ->
  let fs := matching N (str_upper S) (str_upper E)
              (clean (text_read read_file input_text)) in
  exists printed L1,
    [/\ letter_stats read_file keys_order input_text N S E show_at_most
        = inr (printed, L1),
        sorted by_count L1
      & forall c, [seq r <- L1 | r.2 == c]
                  = [seq (k, c) | k <- keys_order (dict_keys (tally fs))
                                & count_mem k fs == c]].
Proof.
move=> no_NUL fs; rewrite letter_statsE (negbTE no_NUL) -/fs.
eexists; eexists; split; first by [].
  exact: (sort_sorted by_count_total).
move=> c; rewrite /stat_rows (filter_sort by_count_total by_count_trans).
rewrite sorted_sort; [exact: by_count_trans | | ].
  by apply: (@sorted_same_count _ c); apply: filter_all.
rewrite filter_map /= (@eq_filter _ _ (fun k => count_mem k fs == c)).
  by move=> k /=; rewrite tally_count.
by apply/eq_in_map => k; rewrite mem_filter tally_count => /andP[/eqP-> _].
Qed.

Lemma letter_stats_sorted_witness :
  let fs := matching 1 (str_upper [::]) (str_upper [::])
              (clean (text_read no_files Inigo)) in
  exists printed L1,
    [/\ letter_stats no_files id Inigo 1 [::] [::] None = inr (printed, L1),
        sorted by_count L1
      & forall c, [seq r <- L1 | r.2 == c]
                  = [seq (k, c) | k <- id (dict_keys (tally fs))
                                & count_mem k fs == c]].
Proof.
apply: (@letter_stats_sorted no_files id Inigo 1 [::] [::] None).
by vm_compute.
Defined.

(** X26: on a text without a NUL character, when the dictionary hands out
    each of its keys once, letter_stats returns a list that holds, in some
    order, exactly one row for every distinct fragment of length N of the
    cleaned text that starts and ends as asked, with the number of
    positions at which that fragment occurs; no fragment has two rows. *)
Theorem letter_stats_counts read_file keys_order input_text N S E show_at_most :
  NUL \notin input_text ->
  (forall ks, uniq ks -> perm_eq (keys_order ks) ks) ->
  let fs := matching N (str_upper S) (str_upper E)
              (clean (text_read read_file input_text)) in
  exists printed L1,
    [/\ letter_stats read_file keys_order input_text N S E show_at_most
        = inr (printed, L1),
        perm_eq L1 [seq (k, count_mem k fs) | k <- undup fs]
      & uniq [seq r.1 | r <- L1]].
Proof.
move=> no_NUL perm_keys fs; rewrite letter_statsE (negbTE no_NUL) -/fs.
have perm_L1 := rows_perm fs perm_keys.
eexists; eexists; split=> //.
rewrite (perm_uniq (perm_map fst perm_L1)) -map_comp.
by rewrite (eq_map (g := id)) // map_id undup_uniq.
Qed.

Lemma letter_stats_counts_witness :
  let fs := matching 2 (str_upper (str_of "l")) (str_upper (str_of "L"))
              (clean (text_read no_files Inigo)) in
  exists printed L1,
    [/\ letter_stats no_files id Inigo 2 (str_of "l") (str_of "L") None
        = inr (printed, L1),
        perm_eq L1 [seq (k, count_mem k fs) | k <- undup fs]
      & uniq [seq r.1 | r <- L1]].
Proof.
apply: (@letter_stats_counts no_files id Inigo 2 (str_of "l") (str_of "L") None).
- by vm_compute.
- by move=> ks _; apply: perm_refl.
Defined.

(** X27: on a text without a NUL character, when the dictionary hands out
    each of its keys once, the counts letter_stats returns add up to the
    number of fragments counted; with no starts_with and no ends_with that
    is len(clean_text) + 1 - N, and 0 when N is larger than that. *)
Theorem letter_stats_total read_file keys_order input_text N S E show_at_most :
  NUL \notin input_text ->
  (forall ks, uniq ks -> perm_eq (keys_order ks) ks) ->
  let t := clean (text_read read_file input_text) in
  exists printed L1,
    [/\ letter_stats read_file keys_order input_text N S E show_at_most
        = inr (printed, L1),
        sumn [seq r.2 | r <- L1] = size (matching N (str_upper S) (str_upper E) t)
      & S = [::] -> E = [::] -> sumn [seq r.2 | r <- L1] = (size t + 1 - N)%N].
Proof.
move=> no_NUL perm_keys t; rewrite letter_statsE (negbTE no_NUL) -/t.
have total : sumn [seq r.2 | r <- stat_rows keys_order
                                   (matching N (str_upper S) (str_upper E) t)]
             = size (matching N (str_upper S) (str_upper E) t).
  rewrite (perm_sumn (perm_map snd (rows_perm _ perm_keys))) -map_comp.
  by rewrite -[RHS]sumn_counts.
eexists; eexists; split=> // S_nil E_nil.
by rewrite total S_nil E_nil /= matching_all size_fragments.
Qed.

Lemma letter_stats_total_witness :
  let t := clean (text_read no_files Inigo) in
  exists printed L1,
    [/\ letter_stats no_files id Inigo 2 [::] [::] None = inr (printed, L1),
        sumn [seq r.2 | r <- L1] = size (matching 2 (str_upper [::]) (str_upper [::]) t)
      & [::] = [::] :> str -> [::] = [::] :> str ->
        sumn [seq r.2 | r <- L1] = (size t + 1 - 2)%N].
Proof.
apply: (@letter_stats_total no_files id Inigo 2 [::] [::] None).
- by vm_compute.
- by move=> ks _; apply: perm_refl.
Defined.

(** X28: on a text without a NUL character, when the dictionary hands out
    each of its keys once, every row [k, c] of the list letter_stats
    returns has a key of exactly N characters, all of them capital letters
    A..Z, that starts with starts_with.upper() and ends with
    ends_with.upper(), and a count c >= 1. *)
Theorem letter_stats_rows read_file keys_order input_text N S E show_at_most :
  NUL \notin input_text ->
  (forall ks, uniq ks -> perm_eq (keys_order ks) ks) ->
  exists printed L1,
    letter_stats read_file keys_order input_text N S E show_at_most
    = inr (printed, L1)
    /\ forall k c, (k, c) \in L1 ->
       [/\ size k = N, all is_upper k,
           startswith k (str_upper S), endswith k (str_upper E) & (0 < c)%N].
Proof.
move=> no_NUL perm_keys; rewrite letter_statsE (negbTE no_NUL).
eexists; eexists; split; first by [].
move=> k c; rewrite (perm_mem (rows_perm _ perm_keys)).
case/mapP=> k'; rewrite mem_undup => k'_in [-> ->].
move: (k'_in); rewrite mem_filter => /andP[/andP[starts ends] k'_frag].
split=> //; first exact: size_fragment k'_frag.
  exact: fragment_upper (clean_upper _) k'_frag.
by rewrite -has_pred1 has_count in k'_in.
Qed.

Lemma letter_stats_rows_witness :
  exists printed L1,
    letter_stats no_files id Inigo 2 (str_of "l") (str_of "L") None
    = inr (printed, L1)
    /\ forall k c, (k, c) \in L1 ->
       [/\ size k = 2%N, all is_upper k,
           startswith k (str_upper (str_of "l")),
           endswith k (str_upper (str_of "L")) & (0 < c)%N].
Proof.
apply: (@letter_stats_rows no_files id Inigo 2 (str_of "l") (str_of "L") None).
- by vm_compute.
- by move=> ks _; apply: perm_refl.
Defined.

(** X29: letter_stats fails, with the TypeError of os.stat, exactly on a
    text with a NUL character; on any other text it returns, and
    show_at_most only limits what is printed: the list returned is the same
    for every show_at_most, and the rows printed are its first
    min(len, show_at_most) rows, all of them for None and none for 0 or a
    negative number. *)
Theorem letter_stats_show_at_most read_file keys_order input_text N S E :
  if NUL \in input_text
  then forall show_at_most,
         letter_stats read_file keys_order input_text N S E show_at_most
         = inl (TypeError Raised_by_the_library)
  else exists L1, forall show_at_most,
         letter_stats read_file keys_order input_text N S E show_at_most
         = inr (match show_at_most with
                | None => L1
                | Some m => if m <= 0 then [::] else take `|m| L1
                end, L1).
Proof.
case: ifP => [has_NUL|no_NUL] => [show_at_most|].
  by rewrite letter_statsE has_NUL.
eexists=> show_at_most; rewrite letter_statsE no_NUL; congr (inr (_, _)).
case: show_at_most => [m|] /=; last by rewrite take_size.
case: ltrP => [lt_m|le_m]; first by rewrite take0 (ltW lt_m).
case: m le_m => [[|m]|m] // _; first by rewrite minn0 take0.
rewrite /minn; case: ltnP => // lt_size.
by rewrite take_size take_oversize // ltnW.
Qed.

(** X30: letter_stats looks at the letters only and not at their case.
    For a text without a NUL character that is not the name of a file, and
    whose cleaned form is not either, the call on the cleaned text with the
    capitalised starts_with and ends_with prints and returns what the call
    on the text itself does, and that call returns. *)
Theorem letter_stats_cleaned read_file keys_order input_text N S E show_at_most :
  NUL \notin input_text ->
  read_file input_text = None ->
  read_file (clean input_text) = None ->
  letter_stats read_file keys_order (clean input_text) N
    (str_upper S) (str_upper E) show_at_most
  = letter_stats read_file keys_order input_text N S E show_at_most
  /\ succeeds (letter_stats read_file keys_order input_text N S E show_at_most).
Proof.
move=> no_NUL not_file not_file'.
rewrite !letter_statsE (negbTE no_NUL) (negbTE (clean_no_NUL _)).
by rewrite /text_read not_file not_file' clean_clean !str_upper_upper.
Qed.

Lemma letter_stats_cleaned_witness :
  letter_stats no_files id (clean Inigo) 2 (str_upper (str_of "h"))
    (str_upper [::]) (Some 1%:Z)
  = letter_stats no_files id Inigo 2 (str_of "h") [::] (Some 1%:Z)
  /\ succeeds (letter_stats no_files id Inigo 2 (str_of "h") [::] (Some 1%:Z)).
Proof.
apply: (@letter_stats_cleaned no_files id Inigo 2 (str_of "h") [::]).
- by vm_compute.
- by [].
- by [].
Defined.
